(** * Inkwell blog editor: the local-draft autosave hook and the Markdown
      toolbar's text mutators

    A shallow embedding of
    - [components/editor/MarkdownEditor.tsx]: [insertAtCursor],
      [insertOnNewLine] and the toolbar [actions];
    - [lib/hooks/useLocalDraft.ts]: [dataToHash], [checkForChanges],
      [saveDraft], [loadDraft], [clearDraft], the hydration effect and the
      two interval callbacks;
    - [app/posts/new/page.tsx] and [app/posts/[slug]/edit/page.tsx]: the
      draft-recovery dialog and its effect.

    All definitions come first (one module per source file, plus one for the
    JavaScript built-ins the code calls); the lemmas follow. *)

From Stdlib Require Import String Ascii.
From stdpp Require Import base tactics option list numbers sorting gmap.

Set Default Proof Using "Type".
Set Warnings "-register-all".
Local Open Scope nat_scope.

(** ** JavaScript built-ins used by the sources *)

Module JS.

(** A JavaScript string is a finite sequence of UTF-16 code units; offsets
    ([selectionStart], [length], [substring]) count code units. *)
Abbreviation CodeUnit := N (only parsing).
Abbreviation JSString := (list N) (only parsing).

(** String literals of the sources. The escape sequences [\n], [\t], [\r]
    and [\\] are read as JavaScript reads them, so that literals can be
    written here exactly as they stand in the sources. *)
Fixpoint literal (l : list ascii) : JSString :=
  match l with
  | [] => []
  | c :: l' =>
    match c, l' with
    | "\"%char, "n"%char :: r => 10%N :: literal r
    | "\"%char, "t"%char :: r => 9%N :: literal r
    | "\"%char, "r"%char :: r => 13%N :: literal r
    | "\"%char, "\"%char :: r => 92%N :: literal r
    | _, _ => N_of_ascii c :: literal l'
    end
  end.

Definition str (s : string) : JSString := literal (list_ascii_of_string s).

(** [s.length] *)
Definition strlen (s : JSString) : nat := length s.

(** ToBoolean on a string: the empty string is the only falsy one. *)
Definition truthy (s : JSString) : bool :=
  match s with [] => false | _ :: _ => true end.

(** [a || b] on strings. *)
Definition or_else (a b : JSString) : JSString :=
  if truthy a then a else b.

(** [s.substring(start, end)] (ECMA-262 22.1.3.25) for non-negative integer
    arguments: both are clamped to the length and swapped when out of order.
    [end_ = None] is the one-argument form. *)
Definition substring (s : JSString) (start : nat) (end_ : option nat) : JSString :=
  let len := strlen s in
  let intStart := start in
  let intEnd := match end_ with None => len | Some e => e end in
  let finalStart := intStart `min` len in
  let finalEnd := intEnd `min` len in
  let from := finalStart `min` finalEnd in
  let to := finalStart `max` finalEnd in
  take (to - from) (drop from s).

(** [s.endsWith(searchString)] (ECMA-262 22.1.3.7) without end position. *)
Definition endsWith (s searchString : JSString) : bool :=
  let len := strlen s in
  let searchLength := strlen searchString in
  if len <? searchLength then false
  else bool_decide (take searchLength (drop (len - searchLength) s) = searchString).

(** [x < y] on strings (ECMA-262 IsLessThan): code units are compared from
    the left, a proper prefix is smaller. *)
Fixpoint str_ltb (x y : JSString) : bool :=
  match x, y with
  | _, [] => false
  | [], _ :: _ => true
  | a :: x', b :: y' =>
    if (a <? b)%N then true else if (b <? a)%N then false else str_ltb x' y'
  end.

(** The order in which [Array.prototype.sort] without a comparator leaves
    two strings: [x] may stand before [y] unless [y < x]. *)
Definition sort_le (x y : JSString) : Prop := str_ltb y x = false.

Global Instance sort_le_dec x y : Decision (sort_le x y).
Proof. unfold sort_le. apply _. Defined.

(** [[...a].sort()] on an array of strings. The standard fixes the result (a
    stable sort by [sort_le]) but not the algorithm; a merge sort stands for
    it. *)
Definition Array_sort (a : list JSString) : list JSString := merge_sort sort_le a.

(** *** JSON *)

(** The values [JSON.parse] can return. An object keeps its properties in
    the order they were written; a number is kept as its source text, since
    the program never computes with one. *)
Inductive JSValue :=
  | JNull
  | JBool (b : bool)
  | JNumber (lit : JSString)
  | JString (s : JSString)
  | JArray (items : list JSValue)
  | JObject (props : list (JSString * JSValue)).

(** The errors the sources can meet: [JSON.parse] throws a [SyntaxError], a
    property read from [null] a [TypeError], and [localStorage.setItem] a
    [QuotaExceededError] when the storage does not take the value. *)
Inductive JSError := SyntaxError | TypeError | QuotaExceededError.

(** The outcome of evaluating an expression that may throw. *)
Inductive Completion (A : Type) :=
  | Normal (a : A)
  | Throw (e : JSError).
Global Arguments Normal {A} a.
Global Arguments Throw {A} e.

Definition hexDigit (n : N) : N := if (n <? 10)%N then (48 + n)%N else (87 + n)%N.

(** [\uXXXX], lower-case digits (ECMA-262 UnicodeEscape). *)
Definition UnicodeEscape (c : N) : JSString :=
  [92; 117; hexDigit ((c / 4096) `mod` 16); hexDigit ((c / 256) `mod` 16);
   hexDigit ((c / 16) `mod` 16); hexDigit (c `mod` 16)]%N.

Definition isLeadingSurrogate (c : N) : bool := (55296 <=? c)%N && (c <=? 56319)%N.
Definition isTrailingSurrogate (c : N) : bool := (56320 <=? c)%N && (c <=? 57343)%N.

(** The characters between the quotes of QuoteJSONString (ECMA-262 25.5.2.3):
    the short escapes, [\u00XX] for the other control characters, [\uXXXX]
    for a surrogate that is not part of a pair, everything else verbatim. *)
Fixpoint quoteChars (s : JSString) : JSString :=
  match s with
  | [] => []
  | c :: r =>
    if (c =? 8)%N then str "\\b" ++ quoteChars r
    else if (c =? 9)%N then str "\\t" ++ quoteChars r
    else if (c =? 10)%N then str "\\n" ++ quoteChars r
    else if (c =? 12)%N then str "\\f" ++ quoteChars r
    else if (c =? 13)%N then str "\\r" ++ quoteChars r
    else if (c =? 34)%N then [92; 34]%N ++ quoteChars r
    else if (c =? 92)%N then str "\\\\" ++ quoteChars r
    else if (c <? 32)%N then UnicodeEscape c ++ quoteChars r
    else if isLeadingSurrogate c then
      match r with
      | d :: r' =>
        if isTrailingSurrogate d then c :: d :: quoteChars r'
        else UnicodeEscape c ++ quoteChars r
      | [] => UnicodeEscape c
      end
    else if isTrailingSurrogate c then UnicodeEscape c ++ quoteChars r
    else c :: quoteChars r
  end.

Definition QuoteJSONString (s : JSString) : JSString :=
  [34%N] ++ quoteChars s ++ [34%N].

(** [parts.join(",")] *)
Fixpoint joinComma (parts : list JSString) : JSString :=
  match parts with
  | [] => []
  | [p] => p
  | p :: ps => p ++ str "," ++ joinComma ps
  end.

(** [JSON.stringify(v)] without replacer or indentation. *)
Fixpoint JSON_stringify (v : JSValue) : JSString :=
  match v with
  | JNull => str "null"
  | JBool true => str "true"
  | JBool false => str "false"
  | JNumber lit => lit
  | JString s => QuoteJSONString s
  | JArray items => str "[" ++ joinComma (map JSON_stringify items) ++ str "]"
  | JObject props =>
    str "{" ++
    joinComma (map (fun kv => match kv with
                              | (k, x) => QuoteJSONString k ++ str ":" ++ JSON_stringify x
                              end) props) ++
    str "}"
  end.

(** [JSON.parse]: a lexer and a push-down recogniser for the JSON grammar
    (ECMA-404), each one pass over its input. *)
Inductive Token :=
  | TLBrace | TRBrace | TLBracket | TRBracket | TColon | TComma
  | TScalar (v : JSValue).

(** The states of the automaton for a JSON number: an optional minus sign,
    then 0 or a digit string without leading zero, then an optional fraction
    (a dot and digits), then an optional exponent (e or E, an optional sign,
    digits). *)
Inductive NumState :=
  | NMinus | NZero | NInt | NDot | NFrac | NExp | NExpSign | NExpDigits.

Definition isDigit (c : N) : bool := (48 <=? c)%N && (c <=? 57)%N.

Definition numStep (st : NumState) (c : N) : option NumState :=
  match st with
  | NMinus => if (c =? 48)%N then Some NZero else if isDigit c then Some NInt else None
  | NZero =>
    if (c =? 46)%N then Some NDot
    else if (c =? 101)%N || (c =? 69)%N then Some NExp else None
  | NInt =>
    if isDigit c then Some NInt
    else if (c =? 46)%N then Some NDot
    else if (c =? 101)%N || (c =? 69)%N then Some NExp else None
  | NDot => if isDigit c then Some NFrac else None
  | NFrac =>
    if isDigit c then Some NFrac
    else if (c =? 101)%N || (c =? 69)%N then Some NExp else None
  | NExp =>
    if (c =? 43)%N || (c =? 45)%N then Some NExpSign
    else if isDigit c then Some NExpDigits else None
  | NExpSign => if isDigit c then Some NExpDigits else None
  | NExpDigits => if isDigit c then Some NExpDigits else None
  end.

Definition numAccepts (st : NumState) : bool :=
  match st with
  | NZero | NInt | NFrac | NExpDigits => true
  | NMinus | NDot | NExp | NExpSign => false
  end.

Definition hexValue (c : N) : option N :=
  if isDigit c then Some (c - 48)%N
  else if (97 <=? c)%N && (c <=? 102)%N then Some (c - 87)%N
  else if (65 <=? c)%N && (c <=? 70)%N then Some (c - 55)%N
  else None.

(** Accumulators hold the characters read so far in reverse. *)
Inductive LexState :=
  | LStart
  | LWord (rest : JSString) (tok : Token)
  | LNum (st : NumState) (acc : JSString)
  | LStr (acc : JSString)
  | LEsc (acc : JSString)
  | LHex (acc : JSString) (count : nat) (val : N).

Definition lexStart (c : N) (toks : list Token) : option (LexState * list Token) :=
  if (c =? 32)%N || (c =? 9)%N || (c =? 10)%N || (c =? 13)%N then Some (LStart, toks)
  else if (c =? 123)%N then Some (LStart, TLBrace :: toks)
  else if (c =? 125)%N then Some (LStart, TRBrace :: toks)
  else if (c =? 91)%N then Some (LStart, TLBracket :: toks)
  else if (c =? 93)%N then Some (LStart, TRBracket :: toks)
  else if (c =? 58)%N then Some (LStart, TColon :: toks)
  else if (c =? 44)%N then Some (LStart, TComma :: toks)
  else if (c =? 34)%N then Some (LStr [], toks)
  else if (c =? 45)%N then Some (LNum NMinus [c], toks)
  else if (c =? 48)%N then Some (LNum NZero [c], toks)
  else if isDigit c then Some (LNum NInt [c], toks)
  else if (c =? 116)%N then Some (LWord (str "rue") (TScalar (JBool true)), toks)
  else if (c =? 102)%N then Some (LWord (str "alse") (TScalar (JBool false)), toks)
  else if (c =? 110)%N then Some (LWord (str "ull") (TScalar JNull), toks)
  else None.

Definition lexStep (st : LexState) (c : N) (toks : list Token)
    : option (LexState * list Token) :=
  match st with
  | LStart => lexStart c toks
  | LWord rest tok =>
    match rest with
    | e :: rest' =>
      if (c =? e)%N
      then Some (match rest' with [] => (LStart, tok :: toks) | _ => (LWord rest' tok, toks) end)
      else None
    | [] => None
    end
  | LNum ns acc =>
    match numStep ns c with
    | Some ns' => Some (LNum ns' (c :: acc), toks)
    | None =>
      if numAccepts ns then lexStart c (TScalar (JNumber (rev acc)) :: toks) else None
    end
  | LStr acc =>
    if (c =? 34)%N then Some (LStart, TScalar (JString (rev acc)) :: toks)
    else if (c =? 92)%N then Some (LEsc acc, toks)
    else if (c <? 32)%N then None
    else Some (LStr (c :: acc), toks)
  | LEsc acc =>
    if (c =? 34)%N || (c =? 92)%N || (c =? 47)%N then Some (LStr (c :: acc), toks)
    else if (c =? 98)%N then Some (LStr (8%N :: acc), toks)
    else if (c =? 102)%N then Some (LStr (12%N :: acc), toks)
    else if (c =? 110)%N then Some (LStr (10%N :: acc), toks)
    else if (c =? 114)%N then Some (LStr (13%N :: acc), toks)
    else if (c =? 116)%N then Some (LStr (9%N :: acc), toks)
    else if (c =? 117)%N then Some (LHex acc 0 0%N, toks)
    else None
  | LHex acc count val =>
    match hexValue c with
    | Some d =>
      let val' := (16 * val + d)%N in
      if count =? 3 then Some (LStr (val' :: acc), toks)
      else Some (LHex acc (S count) val', toks)
    | None => None
    end
  end.

(** The tokens of [s], or [None] where [s] is not a sequence of JSON tokens. *)
Fixpoint lex (st : LexState) (toks : list Token) (s : JSString) : option (list Token) :=
  match s with
  | [] =>
    match st with
    | LStart => Some (rev toks)
    | LNum ns acc =>
      if numAccepts ns then Some (rev (TScalar (JNumber (rev acc)) :: toks)) else None
    | _ => None
    end
  | c :: s' =>
    match lexStep st c toks with
    | Some (st', toks') => lex st' toks' s'
    | None => None
    end
  end.

(** What the recogniser may read next. *)
Inductive Expect :=
  | EValue
  | EValueOrClose
  | EKeyOrClose
  | EKey
  | EColon (key : JSString)
  | ECommaOrClose
  | EDone (v : JSValue).

(** An array or object still open: what it holds so far (in reverse) and,
    for an object, the key whose value is being read. *)
Inductive Frame :=
  | InArray (items : list JSValue)
  | InObject (props : list (JSString * JSValue)) (key : JSString).

(** A value is complete: it goes into the innermost open container. *)
Definition supply (v : JSValue) (stack : list Frame) : Expect * list Frame :=
  match stack with
  | [] => (EDone v, [])
  | InArray items :: stack' => (ECommaOrClose, InArray (v :: items) :: stack')
  | InObject props key :: stack' =>
    (ECommaOrClose, InObject ((key, v) :: props) key :: stack')
  end.

Definition parseStep (e : Expect) (stack : list Frame) (t : Token)
    : option (Expect * list Frame) :=
  match e, t with
  | (EValue | EValueOrClose), TScalar v => Some (supply v stack)
  | (EValue | EValueOrClose), TLBracket => Some (EValueOrClose, InArray [] :: stack)
  | (EValue | EValueOrClose), TLBrace => Some (EKeyOrClose, InObject [] [] :: stack)
  | (EValueOrClose | ECommaOrClose), TRBracket =>
    match stack with
    | InArray items :: stack' => Some (supply (JArray (rev items)) stack')
    | _ => None
    end
  | (EKeyOrClose | EKey), TScalar (JString key) => Some (EColon key, stack)
  | (EKeyOrClose | ECommaOrClose), TRBrace =>
    match stack with
    | InObject props _ :: stack' => Some (supply (JObject (rev props)) stack')
    | _ => None
    end
  | EColon key, TColon =>
    match stack with
    | InObject props _ :: stack' => Some (EValue, InObject props key :: stack')
    | _ => None
    end
  | ECommaOrClose, TComma =>
    match stack with
    | InArray _ :: _ => Some (EValue, stack)
    | InObject _ _ :: _ => Some (EKey, stack)
    | [] => None
    end
  | _, _ => None
  end.

Fixpoint parseTokens (e : Expect) (stack : list Frame) (toks : list Token)
    : option JSValue :=
  match toks with
  | [] => match e with EDone v => Some v | _ => None end
  | t :: toks' =>
    match parseStep e stack t with
    | Some (e', stack') => parseTokens e' stack' toks'
    | None => None
    end
  end.

(** [JSON.parse(text)]: the value, or a thrown [SyntaxError]. *)
Definition JSON_parse (text : JSString) : Completion JSValue :=
  match lex LStart [] text ≫= parseTokens EValue [] with
  | Some v => Normal v
  | None => Throw SyntaxError
  end.

(** [v.key] for [v] a value returned by [JSON.parse] and [key] not the name
    of a built-in property: reading from [null] throws a [TypeError], an
    object yields the value written last under [key], and [None] stands for
    [undefined]. *)
Definition getProp (v : JSValue) (key : JSString) : Completion (option JSValue) :=
  match v with
  | JNull => Throw TypeError
  | JObject props => Normal ((λ r, r.2.2) <$> list_find (λ kv, kv.1 = key) (rev props))
  | _ => Normal None
  end.





End JS.

(** ** components/editor/MarkdownEditor.tsx *)

Module MarkdownEditor.
Import JS.

(** The part of the [HTMLTextAreaElement] the editor reads. *)
Record Textarea := mkTextarea {
  selectionStart : nat;
  selectionEnd : nat
}.

(** What one toolbar command does: the text handed to [onChange] and the two
    arguments of the deferred [textarea.setSelectionRange] call. *)
Record Edit := mkEdit {
  newText : JSString;
  newSelectionStart : nat;
  newSelectionEnd : nat
}.

(** [insertAtCursor(prefix, suffix, defaultText)]; [value] is the component's
    prop and [textarea] is [textareaRef.current]. [None] is the early return
    taken when the ref is not attached: nothing changes. *)
Definition insertAtCursor (value : JSString) (textarea : option Textarea)
    (prefix suffix defaultText : JSString) : option Edit :=
  match textarea with
  | None => None
  | Some textarea =>
    let start := selectionStart textarea in
    let end_ := selectionEnd textarea in
    let selectedText := substring value start (Some end_) in
    let textToInsert := or_else selectedText defaultText in
    let before := substring value 0 (Some start) in
    let after := substring value end_ None in
    let newText := before ++ prefix ++ textToInsert ++ suffix ++ after in
    let newCursorPos :=
      if truthy selectedText
      then start + strlen prefix + strlen selectedText + strlen suffix
      else start + strlen prefix in
    Some (mkEdit newText newCursorPos newCursorPos)
  end.

(** [insertOnNewLine(text)] *)
Definition insertOnNewLine (value : JSString) (textarea : option Textarea)
    (text : JSString) : option Edit :=
  match textarea with
  | None => None
  | Some textarea =>
    let start := selectionStart textarea in
    let before := substring value 0 (Some start) in
    let after := substring value start None in
    let needsNewline := (0 <? strlen before) && negb (endsWith before (str "\n")) in
    let prefix := if needsNewline then str "\n" else str "" in
    let newText := before ++ prefix ++ text ++ after in
    let newCursorPos := start + strlen prefix + strlen text in
    Some (mkEdit newText newCursorPos newCursorPos)
  end.

(** The keys of the memoised [actions] object. *)
Inductive Action :=
  | bold | italic | h1 | h2 | h3 | bulletList | numberedList | quote
  | inlineCode | codeBlock | link | image | horizontalRule.

Definition actions (a : Action) (value : JSString) (textarea : option Textarea)
    : option Edit :=
  match a with
  | bold => insertAtCursor value textarea (str "**") (str "**") (str "bold text")
  | italic => insertAtCursor value textarea (str "*") (str "*") (str "italic text")
  | h1 => insertOnNewLine value textarea (str "# ")
  | h2 => insertOnNewLine value textarea (str "## ")
  | h3 => insertOnNewLine value textarea (str "### ")
  | bulletList => insertOnNewLine value textarea (str "- ")
  | numberedList => insertOnNewLine value textarea (str "1. ")
  | quote => insertOnNewLine value textarea (str "> ")
  | inlineCode => insertAtCursor value textarea (str "`") (str "`") (str "code")
  | codeBlock => insertOnNewLine value textarea (str "```\n\n```")
  | link => insertAtCursor value textarea (str "[") (str "](url)") (str "link text")
  | image => insertAtCursor value textarea (str "![") (str "](url)") (str "alt text")
  | horizontalRule => insertOnNewLine value textarea (str "\n---\n")
  end.

End MarkdownEditor.

(** ** lib/hooks/useLocalDraft.ts *)

Module UseLocalDraft.
Import JS.

(** ["idle" | "saving" | "saved"] *)
Inductive DraftStatus := Idle | Saving | Saved.

(** [Omit<DraftData, "savedAt">]: what [getData] returns. *)
Record DraftFields := mkDraftFields {
  title : JSString;
  slug : JSString;
  description : JSString;
  date : JSString;
  draft : bool;
  tags : list JSString;
  content : JSString
}.

(** [DraftData], built in [saveDraft] as [{ ...data, savedAt }]. *)
Record DraftData := mkDraftData {
  data : DraftFields;
  savedAt : JSString
}.

(** The object behind a [DraftData], properties in creation order. *)
Definition DraftData_object (d : DraftData) : JSValue :=
  JObject [
    (str "title", JString (title (data d)));
    (str "slug", JString (slug (data d)));
    (str "description", JString (description (data d)));
    (str "date", JString (date (data d)));
    (str "draft", JBool (draft (data d)));
    (str "tags", JArray (JString <$> tags (data d)));
    (str "content", JString (content (data d)));
    (str "savedAt", JString (savedAt d))
  ].

Definition dataToHash (data : DraftFields) : JSString :=
  JSON_stringify (JObject [
    (str "title", JString (title data));
    (str "slug", JString (slug data));
    (str "description", JString (description data));
    (str "date", JString (date data));
    (str "draft", JBool (draft data));
    (str "tags", JArray (JString <$> Array_sort (tags data)));
    (str "content", JString (content data))
  ]).

(** A [Date]: [new Date()] at a clock reading, given by its ISO string, or
    [new Date(x)] for a value [x] ([None] is [undefined]). *)
Inductive JSDate :=
  | DateNow (iso : JSString)
  | DateOf (x : option JSValue).

(** The hook's [useState] cells and its one [useRef]. *)
Record Hook := mkHook {
  status : DraftStatus;
  lastSaved : option JSDate;
  hasUnsavedChanges : bool;
  hasDraft : bool;
  isHydrated : bool;
  lastSavedHashRef : option JSString
}.

(** The state after the first render of a mount. *)
Definition initialHook : Hook := mkHook Idle None false false false None.

(** A hook instance together with the browser's [localStorage]. [setItemCalls]
    records every [localStorage.setItem(key, value)] made, latest first. *)
Record World := mkWorld {
  hook : Hook;
  localStorage : gmap JSString JSString;
  setItemCalls : list (JSString * JSString)
}.

(** Code that reads and writes the world and may throw. *)
Definition M (A : Type) : Type := World → Completion A * World.

Global Instance M_ret : MRet M := λ A a w, (Normal a, w).
Global Instance M_bind : MBind M := λ A B f m w,
  match m w with
  | (Normal a, w') => f a w'
  | (Throw e, w') => (Throw e, w')
  end.

Definition throw {A} (e : JSError) : M A := λ w, (Throw e, w).

(** [try { body } catch { handler }] *)
Definition try_catch {A} (body : M A) (handler : M A) : M A := λ w,
  match body w with
  | (Normal a, w') => (Normal a, w')
  | (Throw _, w') => handler w'
  end.

(** An expression that may throw, evaluated inside [M]. *)
Definition eval {A} (c : Completion A) : M A := λ w, (c, w).

Definition modifyHook (f : Hook → Hook) : M unit := λ w,
  (Normal (), mkWorld (f (hook w)) (localStorage w) (setItemCalls w)).

Definition setStatus (v : DraftStatus) : M unit :=
  modifyHook (λ h, mkHook v (lastSaved h) (hasUnsavedChanges h) (hasDraft h)
                          (isHydrated h) (lastSavedHashRef h)).
Definition setLastSaved (v : option JSDate) : M unit :=
  modifyHook (λ h, mkHook (status h) v (hasUnsavedChanges h) (hasDraft h)
                          (isHydrated h) (lastSavedHashRef h)).
Definition setHasUnsavedChanges (v : bool) : M unit :=
  modifyHook (λ h, mkHook (status h) (lastSaved h) v (hasDraft h)
                          (isHydrated h) (lastSavedHashRef h)).
Definition setHasDraft (v : bool) : M unit :=
  modifyHook (λ h, mkHook (status h) (lastSaved h) (hasUnsavedChanges h) v
                          (isHydrated h) (lastSavedHashRef h)).
Definition setIsHydrated (v : bool) : M unit :=
  modifyHook (λ h, mkHook (status h) (lastSaved h) (hasUnsavedChanges h) (hasDraft h)
                          v (lastSavedHashRef h)).
(** [lastSavedHashRef.current = v] *)
Definition setLastSavedHashRef (v : option JSString) : M unit :=
  modifyHook (λ h, mkHook (status h) (lastSaved h) (hasUnsavedChanges h) (hasDraft h)
                          (isHydrated h) v).
(** [lastSavedHashRef.current] *)
Definition getLastSavedHashRef : M (option JSString) := λ w,
  (Normal (lastSavedHashRef (hook w)), w).

(** [localStorage.getItem(key)]; [None] is [null]. *)
Definition getItem (key : JSString) : M (option JSString) := λ w,
  (Normal (localStorage w !! key), w).
(** [localStorage.setItem(key, value)] on a storage that takes the value;
    [setItemOn] below has the refusal as well. *)
Definition setItem (key value : JSString) : M unit := λ w,
  (Normal (), mkWorld (hook w) (<[key := value]> (localStorage w))
                      ((key, value) :: setItemCalls w)).
Definition removeItem (key : JSString) : M unit := λ w,
  (Normal (), mkWorld (hook w) (delete key (localStorage w)) (setItemCalls w)).

(** [const storageKey = `inkwell-draft-${key}`] *)
Definition storageKey (key : JSString) : JSString := str "inkwell-draft-" ++ key.

(** The effect "Check for existing draft after hydration". *)
Definition hydrationEffect (key : JSString) : M unit :=
  saved ← getItem (storageKey key);
  match saved with
  | Some saved =>
    if truthy saved then
      try_catch
        (draft ← eval (JSON_parse saved);
         setHasDraft true;;
         savedAt ← eval (getProp draft (str "savedAt"));
         setLastSaved (Some (DateOf savedAt)))
        (mret ())
    else mret ()
  | None => mret ()
  end;;
  setIsHydrated true.

(** [checkForChanges()]; [getData] is what the call [getData()] returns,
    [None] for [null]. *)
Definition checkForChanges (getData : option DraftFields) : M bool :=
  match getData with
  | None => mret false
  | Some data =>
    last ← getLastSavedHashRef;
    match last with
    | None =>
      setLastSavedHashRef (Some (dataToHash data));;
      mret false
    | Some last =>
      let currentHash := dataToHash data in
      let hasChanges := negb (bool_decide (last = currentHash)) in
      setHasUnsavedChanges hasChanges;;
      mret hasChanges
    end
  end.

(** [saveDraft()]; [now] is the clock reading of this call as
    [new Date().toISOString()] gives it. *)
Definition saveDraft (key : JSString) (now : JSString)
    (getData : option DraftFields) : M unit :=
  match getData with
  | None => mret ()
  | Some data =>
    let currentHash := dataToHash data in
    last ← getLastSavedHashRef;
    if bool_decide (last = Some currentHash) then mret ()
    else
      setStatus Saving;;
      let draftData := mkDraftData data now in
      setItem (storageKey key) (JSON_stringify (DraftData_object draftData));;
      setLastSavedHashRef (Some currentHash);;
      setLastSaved (Some (DateNow now));;
      setStatus Saved;;
      setHasUnsavedChanges false;;
      setHasDraft true
  end.

(** [loadDraft()]. The result is typed [DraftData | null] by a cast; at run
    time it is whatever [JSON.parse] returned, and [JNull] is [null]. *)
Definition loadDraft (key : JSString) : M JSValue :=
  saved ← getItem (storageKey key);
  match saved with
  | Some saved =>
    if truthy saved then try_catch (eval (JSON_parse saved)) (mret JNull)
    else mret JNull
  | None => mret JNull
  end.

Definition clearDraft (key : JSString) : M unit :=
  removeItem (storageKey key);;
  setHasDraft false;;
  setLastSaved None.

(** The callback of the one-second interval. *)
Definition changeCheckTick (getData : option DraftFields) : M unit :=
  checkForChanges getData;; mret ().

(** The callback of the auto-save interval. *)
Definition autoSaveTick (key : JSString) (now : JSString)
    (getData : option DraftFields) : M unit :=
  hasChanges ← checkForChanges getData;
  if (hasChanges : bool) then saveDraft key now getData else mret ().

(** How the browser answers a [localStorage.setItem]: it stores the value,
    or, when the storage is full, it stores nothing and throws a
    [QuotaExceededError]. [setItem] above is the accepting answer, and what
    is built on it, [saveDraft] and [autoSaveTick], is the hook on a
    storage that accepts the write. *)
Inductive StorageAnswer := Accepts | Refuses.

Definition setItemOn (answer : StorageAnswer) (key value : JSString) : M unit :=
  match answer with
  | Accepts => setItem key value
  | Refuses => λ w,
    (Throw QuotaExceededError,
     mkWorld (hook w) (localStorage w) ((key, value) :: setItemCalls w))
  end.

(** [saveDraft()] with the answer the storage gives to its [setItem]. The
    call is outside any [try], so a refusal leaves [saveDraft] at that
    line. *)
Definition saveDraftOn (answer : StorageAnswer) (key : JSString) (now : JSString)
    (getData : option DraftFields) : M unit :=
  match getData with
  | None => mret ()
  | Some data =>
    let currentHash := dataToHash data in
    last ← getLastSavedHashRef;
    if bool_decide (last = Some currentHash) then mret ()
    else
      setStatus Saving;;
      let draftData := mkDraftData data now in
      setItemOn answer (storageKey key) (JSON_stringify (DraftData_object draftData));;
      setLastSavedHashRef (Some currentHash);;
      setLastSaved (Some (DateNow now));;
      setStatus Saved;;
      setHasUnsavedChanges false;;
      setHasDraft true
  end.

(** The callback of the auto-save interval with the answer of the storage.
    What it throws goes to the timer; the state updates made before stay. *)
Definition autoSaveTickOn (answer : StorageAnswer) (key : JSString) (now : JSString)
    (getData : option DraftFields) : M unit :=
  hasChanges ← checkForChanges getData;
  if (hasChanges : bool) then saveDraftOn answer key now getData else mret ().

End UseLocalDraft.

(** ** app/posts/new/page.tsx and app/posts/[slug]/edit/page.tsx *)

Module Pages.
Import JS UseLocalDraft.

(** The two pages that call [useLocalDraft]. *)
Inductive Route :=
  | NewPostPage
  | EditPostPage (slug : JSString).

(** The [key] option each page passes to the hook. *)
Definition draftKey (r : Route) : JSString :=
  match r with
  | NewPostPage => str "new-post"
  | EditPostPage slug => str "edit-" ++ slug
  end.

(** The dependency array of the effect that opens the recovery dialog:
    [[isHydrated, hasDraft]] on the new-post page, [[isHydrated, hasDraft,
    post]] on the edit page. [post] is the query result, [None] while it is
    [undefined]; the number tells one result object from another, as React's
    [Object.is] comparison does. The new-post page has no [post]; its
    component stays [None]. *)
Abbreviation Deps := (bool * bool * option nat)%type (only parsing).

(** One mounted page: the hook with the storage, [showDraftDialog], the
    query result, and the dependencies the dialog effect last ran with. The
    form and the editor content are not part of it: every timer callback is
    given what [getData()] returns at that moment. *)
Record Page := mkPage {
  route : Route;
  world : World;
  showDraftDialog : bool;
  post : option nat;
  dialogEffectDeps : option (bool * bool * option nat)
}.

Definition currentDeps (p : Page) : bool * bool * option nat :=
  (isHydrated (hook (world p)), hasDraft (hook (world p)), post p).

(** The body of the dialog effect. *)
Definition dialogEffect (p : Page) : Page :=
  let h := hook (world p) in
  let condition :=
    match route p with
    | NewPostPage => isHydrated h && hasDraft h
    | EditPostPage _ => isHydrated h && hasDraft h && bool_decide (is_Some (post p))
    end in
  if condition
  then mkPage (route p) (world p) true (post p) (dialogEffectDeps p)
  else p.

(** A render is committed: React runs the effect when it has not run yet or
    one of its dependencies differs from the last run. *)
Definition commit (p : Page) : Page :=
  if bool_decide (dialogEffectDeps p = Some (currentDeps p)) then p
  else
    let p' := dialogEffect p in
    mkPage (route p') (world p') (showDraftDialog p') (post p') (Some (currentDeps p)).

(** Running hook code from an event handler or timer, followed by the
    render it causes. The handlers below never throw. *)
Definition withWorld (p : Page) (m : M unit) : Page :=
  commit (mkPage (route p) (m (world p)).2 (showDraftDialog p) (post p)
                 (dialogEffectDeps p)).

(** Mounting the page over a given [localStorage]: the first render, then
    the effects of that render (the hydration effect; the dialog effect,
    which still sees the first render's state), then the render caused by
    the hydration effect's updates. *)
Definition mount (r : Route) (storage : gmap JSString JSString) : Page :=
  let first := mkPage r (mkWorld initialHook storage []) false None None in
  let afterDialogEffect := commit first in
  withWorld afterDialogEffect (hydrationEffect (draftKey r)).

(** What happens to a mounted page. *)
Inductive Event :=
  | ChangeCheckTick (getData : option DraftFields)
  | AutoSaveTick (now : JSString) (getData : option DraftFields)
  | RestoreDraft
  | DiscardDraft
  | PostLoaded (id : nat).

(** [handleRestoreDraft] as far as the page goes: the draft is loaded and
    the dialog closes. What the handler hands to the form and the editor is
    [handleRestoreDraftValues] below; the form and its render are outside
    this model. *)
Definition handleRestoreDraft (p : Page) : Page :=
  let p1 := withWorld p (loadDraft (draftKey (route p));; mret ()) in
  commit (mkPage (route p1) (world p1) false (post p1) (dialogEffectDeps p1)).




Definition handleDiscardDraft (p : Page) : Page :=
  let p1 := mkPage (route p) ((clearDraft (draftKey (route p))) (world p)).2
                   false (post p) (dialogEffectDeps p) in
  commit p1.

Definition step (p : Page) (e : Event) : Page :=
  match e with
  | ChangeCheckTick getData => withWorld p (changeCheckTick getData)
  | AutoSaveTick now getData => withWorld p (autoSaveTick (draftKey (route p)) now getData)
  | RestoreDraft => handleRestoreDraft p
  | DiscardDraft => handleDiscardDraft p
  | PostLoaded id =>
    commit (mkPage (route p) (world p) (showDraftDialog p) (Some id) (dialogEffectDeps p))
  end.

(** The pages a mount goes through, the latest first. *)
Fixpoint history (p : Page) (events : list Event) : list Page :=
  match events with
  | [] => [p]
  | e :: events' => history (step p e) events' ++ [p]
  end.

(** How often the dialog opened in a history given oldest first: once if the
    first page shows it, and once for every page that shows it after one
    that does not. *)
Fixpoint timesOpened (shownBefore : bool) (pages : list Page) : nat :=
  match pages with
  | [] => 0
  | p :: pages' =>
    (if showDraftDialog p && negb shownBefore then 1 else 0)
    + timesOpened (showDraftDialog p) pages'
  end.

Definition promptsShown (p : Page) (events : list Event) : nat :=
  timesOpened false (rev (history p events)).

End Pages.

(** ** The vocabulary of the specification *)

Module Spec.
Import JS MarkdownEditor UseLocalDraft Pages.

(** [text[a, b]]: the characters of [text] from offset [a] up to, not
    including, offset [b]. *)
Definition slice (text : JSString) (a b : nat) : JSString :=
  take (b - a) (drop a text).

(** The resulting selection covers exactly a placeholder inserted after
    [prefix] at offset [start]. *)
Definition coversPlaceholder (e : Edit) (start : nat)
    (prefix placeholder : JSString) : Prop :=
  newSelectionStart e = start + strlen prefix ∧
  newSelectionEnd e = start + strlen prefix + strlen placeholder.

(** The resulting selection is a cursor at offset [pos]. *)
Definition collapsedAt (e : Edit) (pos : nat) : Prop :=
  newSelectionStart e = pos ∧ newSelectionEnd e = pos.


(** A value has the shape of the [DraftData] interface: seven string-,
    boolean- and string-array-valued properties and [savedAt]. *)
Definition isString (v : option JSValue) : bool :=
  match v with Some (JString _) => true | _ => false end.
Definition isBoolean (v : option JSValue) : bool :=
  match v with Some (JBool _) => true | _ => false end.
Definition isStringArray (v : option JSValue) : bool :=
  match v with
  | Some (JArray items) => forallb (λ x, isString (Some x)) items
  | _ => false
  end.
Definition hasProp (v : JSValue) (key : JSString)
    (check : option JSValue → bool) : bool :=
  match getProp v key with Normal x => check x | Throw _ => false end.
Definition isDraftData (v : JSValue) : bool :=
  hasProp v (str "title") isString && hasProp v (str "slug") isString &&
  hasProp v (str "description") isString && hasProp v (str "date") isString &&
  hasProp v (str "draft") isBoolean && hasProp v (str "tags") isStringArray &&
  hasProp v (str "content") isString && hasProp v (str "savedAt") isString.

(** A stored string parses as a valid snapshot. *)
Definition parsesAsSnapshot (saved : JSString) : bool :=
  match JSON_parse saved with
  | Normal v => isDraftData v
  | Throw _ => false
  end.

(** A post used in examples, and the same post after one more keystroke. *)
Definition samplePost : DraftFields :=
  mkDraftFields (str "Hello") (str "hello") (str "A first post")
                (str "2024-01-01T00:00:00.000Z") true [str "a"; str "b"]
                (str "Some text").
Definition samplePostEdited : DraftFields :=
  mkDraftFields (str "Hello") (str "hello") (str "A first post")
                (str "2024-01-01T00:00:00.000Z") true [str "a"; str "b"]
                (str "Some text!").
Definition samplePostTagsSwapped : DraftFields :=
  mkDraftFields (str "Hello") (str "hello") (str "A first post")
                (str "2024-01-01T00:00:00.000Z") true [str "b"; str "a"]
                (str "Some text").

(** A browser in which nothing is stored, seen by a freshly mounted hook. *)
Definition freshWorld : World := mkWorld initialHook ∅ [].

(** A freshly mounted hook over a storage that holds [value] under the
    new-post page's key. *)
Definition worldWithStored (value : JSString) : World :=
  mkWorld initialHook {[ storageKey (draftKey NewPostPage) := value ]} [].

End Spec.

(** ** JSON texts as token sequences *)

Module JSONSyntax.
Import JS.

(** The tokens of several texts written one after the other with commas
    between them. *)
Fixpoint commaSep (parts : list (list Token)) : list Token :=
  match parts with
  | [] => []
  | [p] => p
  | p :: ps => p ++ TComma :: commaSep ps
  end.

(** The tokens of the text [JSON.stringify] writes for a value. *)
Fixpoint tokens (v : JSValue) : list Token :=
  match v with
  | JArray items => TLBracket :: commaSep (map tokens items) ++ [TRBracket]
  | JObject props =>
    TLBrace ::
    commaSep (map (fun kv => match kv with
                             | (k, x) => TScalar (JString k) :: TColon :: tokens x
                             end) props) ++ [TRBrace]
  | _ => [TScalar v]
  end.

(** No number occurs in the value. *)
Fixpoint numberFree (v : JSValue) : bool :=
  match v with
  | JNumber _ => false
  | JArray items => forallb numberFree items
  | JObject props => forallb (fun kv => match kv with (_, x) => numberFree x end) props
  | _ => true
  end.

(** [text] is read as the tokens [ts], whatever was read before and
    whatever follows. *)
Definition lexesTo (text : list N) (ts : list Token) : Prop :=
  ∀ toks rest, lex LStart toks (text ++ rest) = lex LStart (rev ts ++ toks) rest.


(** In a place where a value may stand, the tokens of [v] are recognised as
    [v], whatever follows. *)
Definition parsesAs (ts : list Token) (v : JSValue) : Prop :=
  ∀ e stack rest, e = EValue ∨ e = EValueOrClose →
    parseTokens e stack (ts ++ rest)
    = parseTokens (supply v stack).1 (supply v stack).2 rest.


End JSONSyntax.

(** ** components/editor/ImageUploader.tsx, and [handleImageUpload] of
       components/editor/MarkdownEditor.tsx *)

Module ImageUpload.
Import JS MarkdownEditor.

(** [s.startsWith(searchString)] (ECMA-262 22.1.3.24) without position. *)
Definition startsWith (s searchString : JSString) : bool :=
  bool_decide (take (strlen searchString) s = searchString).

(** The characters the regular expression class [\s] matches (ECMA-262
    22.2.2.9): WhiteSpace and LineTerminator. *)
Definition isWhiteSpace (c : N) : bool :=
  bool_decide (c ∈ [9; 10; 11; 12; 13; 32; 160; 5760; 8232; 8233; 8239; 8287;
                    12288; 65279]%N)
  || ((8192 <=? c)%N && (c <=? 8202)%N).

(** [s.replace(/[class]+/g, "-")]: every maximal run of characters of the
    class becomes one hyphen. [inRun] tells that the character before
    belonged to a run. *)
Fixpoint replaceRuns (class : N → bool) (inRun : bool) (s : JSString) : JSString :=
  match s with
  | [] => []
  | c :: r =>
    if class c
    then if inRun then replaceRuns class true r else 45%N :: replaceRuns class true r
    else c :: replaceRuns class false r
  end.

(** What the uploader reads of a [File]. *)
Record File := mkFile {
  name : JSString;
  type : JSString;
  size : N
}.

Record PendingImage := mkPendingImage {
  id : JSString;
  file : File;
  blobUrl : JSString;
  filename : JSString
}.

(** [handleUploadFile(file)]. [createObjectURL] is what
    [URL.createObjectURL(file)] returns and [newId] the identifier made from
    the clock and the random generator. The result is the pair handed to
    [onUpload], or [None] when the file is refused with a toast. *)
Definition handleUploadFile (file : File) (createObjectURL newId : JSString)
    : option (JSString * PendingImage) :=
  if negb (startsWith (type file) (str "image/")) then None
  else if (5 * 1024 * 1024 <? size file)%N then None
  else
    let blobUrl := createObjectURL in
    let id := newId in
    let filename := replaceRuns isWhiteSpace false (name file) in
    let pendingImage := mkPendingImage id file blobUrl filename in
    let markdown := str "![" ++ filename ++ str "](" ++ blobUrl ++ str ")" in
    Some (markdown, pendingImage).

(** [handleImageUpload(markdown, pendingImage)] of the editor: the new list
    of pending images and the text handed to [onChange]. *)
Definition handleImageUpload (value : JSString) (textarea : option Textarea)
    (pendingImages : list PendingImage)
    (markdown : JSString) (pendingImage : PendingImage)
    : list PendingImage * JSString :=
  let pendingImages' := pendingImages ++ [pendingImage] in
  match textarea with
  | None => (pendingImages', value ++ str "\n\n" ++ markdown ++ str "\n")
  | Some textarea =>
    let start := selectionStart textarea in
    let before := substring value 0 (Some start) in
    let after := substring value start None in
    let needsNewline := (0 <? strlen before) && negb (endsWith before (str "\n")) in
    let prefix := if needsNewline then str "\n\n" else str "" in
    (pendingImages', before ++ prefix ++ markdown ++ str "\n" ++ after)
  end.

End ImageUpload.

(** ** components/posts/FrontmatterForm.tsx *)

Module FrontmatterForm.
Import JS ImageUpload.

(** The class [[\s_]]. *)
Definition isSeparator (c : N) : bool := isWhiteSpace c || (c =? 95)%N.

(** The class [[a-z0-9-]]. *)
Definition isSlugChar (c : N) : bool :=
  ((97 <=? c)%N && (c <=? 122)%N) || ((48 <=? c)%N && (c <=? 57)%N) || (c =? 45)%N.

Definition isHyphen (c : N) : bool := (c =? 45)%N.

(** [s.replace(/^-|-$/g, "")]: a hyphen at the very start is removed, and so
    is a hyphen at the very end of what then remains. *)
Definition stripHyphenEnds (s : list N) : list N :=
  let s1 := match s with
            | c :: r => if isHyphen c then r else s
            | [] => s
            end in
  if endsWith s1 (str "-") then take (length s1 - 1) s1 else s1.

Section slug.
(** [String.prototype.toLowerCase]. *)
Variable toLowerCase : list N → list N.

(** The slug [handleTitleChange] derives from a title. *)
Definition slugFromTitle (title : list N) : list N :=
  stripHyphenEnds
    (replaceRuns isHyphen false
       (List.filter isSlugChar
          (replaceRuns isSeparator false (toLowerCase title)))).

(** The two form values [handleTitleChange] sets. *)
Record TitleAndSlug := mkTitleAndSlug {
  formTitle : list N;
  formSlug : list N
}.

(** [handleTitleChange]; [defaultSlug] is [defaultValues?.slug], [None] when
    it is [undefined]. *)
Definition handleTitleChange (hideSlug : bool) (defaultSlug : option (list N))
    (values : TitleAndSlug) (title : list N) : TitleAndSlug :=
  let values1 := mkTitleAndSlug title (formSlug values) in
  let hasDefaultSlug := match defaultSlug with Some s => truthy s | None => false end in
  if negb hideSlug && negb hasDefaultSlug
  then mkTitleAndSlug title (slugFromTitle title)
  else values1.
End slug.

(** No two hyphens stand next to each other. *)
Fixpoint noDoubleHyphen (s : list N) : Prop :=
  match s with
  | [] => True
  | c :: r => (c = 45%N → head r ≠ Some 45%N) ∧ noDoubleHyphen r
  end.

(** A slug in normal form: only characters of [[a-z0-9-]], hyphens single
    and only between other characters. *)
Definition wellFormedSlug (s : list N) : Prop :=
  Forall (λ c, isSlugChar c = true) s ∧ noDoubleHyphen s ∧
  head s ≠ Some 45%N ∧ last s ≠ Some 45%N.

(** Lower-casing of the letters A to Z only: what [toLowerCase] does on
    ASCII text. *)
Definition toLowerCaseASCII (s : list N) : list N :=
  (λ c, if (65 <=? c)%N && (c <=? 90)%N then (c + 32)%N else c) <$> s.

End FrontmatterForm.

(** ** components/posts/TagInput.tsx *)

Module TagInput.
Import JS ImageUpload.

Fixpoint dropWhile (P : N → bool) (s : list N) : list N :=
  match s with
  | [] => []
  | c :: r => if P c then dropWhile P r else s
  end.

(** [s.trim()] (ECMA-262 22.1.3.32): white space and line terminators are
    removed from both ends. *)
Definition trim (s : list N) : list N :=
  reverse (dropWhile isWhiteSpace (reverse (dropWhile isWhiteSpace s))).

(** [value.filter((_, i) => i !== index)] *)
Definition removeTag (value : list (list N)) (index : nat) : list (list N) :=
  snd <$> List.filter (λ p, negb (p.1 =? index)) (zip (seq 0 (length value)) value).

Section tags.
(** [String.prototype.toLowerCase]. *)
Variable toLowerCase : list N → list N.

(** [addTag()]: the tags handed to [onChange] (the old ones when it is not
    called) and the new input value. *)
Definition addTag (value : list (list N)) (inputValue : list N)
    : list (list N) * list N :=
  let tag := toLowerCase (trim inputValue) in
  (if truthy tag && negb (bool_decide (tag ∈ value)) then value ++ [tag] else value,
   str "").

(** [handleKeyDown(e)] for [e.key = key]. *)
Definition handleKeyDown (key : list N) (value : list (list N))
    (inputValue : list N) : list (list N) * list N :=
  if bool_decide (key = str "Enter") || bool_decide (key = str ",")
  then addTag value inputValue
  else if bool_decide (key = str "Backspace") && bool_decide (inputValue = str "")
          && (0 <? length value)
  then (removeTag value (length value - 1), inputValue)
  else (value, inputValue).
End tags.

End TagInput.

(** ** components/editor/MarkdownPreview.tsx *)

Module MarkdownPreview.
Import JS ImageUpload.

(** The characters the regular expression [.] does not match. *)
Definition isLineTerminator (c : N) : bool :=
  bool_decide (c ∈ [10; 13; 8232; 8233]%N).

(** [src.match(/^\.?\/images\/(.+)$/)]: the first capture group, or [None]
    when there is no match. The text is an optional dot, then "/images/",
    then up to the end one or more characters none of which is a line
    terminator. *)
Definition skipDot (src : list N) : list N :=
  match src with
  | c :: r => if (c =? 46)%N && startsWith r (str "/images/") then r else src
  | [] => src
  end.

Definition matchRelativePattern (src : list N) : option (list N) :=
  let afterDot := skipDot src in
  if startsWith afterDot (str "/images/")
  then
    let filename := drop (strlen (str "/images/")) afterDot in
    if truthy filename && forallb (λ c, negb (isLineTerminator c)) filename
    then Some filename else None
  else None.

(** [transformImageUrl(src, slug)]; [slug = None] is [undefined]. *)
Definition transformImageUrl (src : list N) (slug : option (list N)) : list N :=
  match slug with
  | None => src
  | Some slug =>
    if negb (truthy slug) || negb (truthy src) then src
    else
      match matchRelativePattern src with
      | Some filename => str "/api/images/proxy/" ++ slug ++ str "/" ++ filename
      | None => src
      end
  end.

End MarkdownPreview.

(** ** lib/mock-data.ts *)

Module MockData.
Import JS.

Record Post := mkPost {
  slug : list N;
  title : list N;
  description : list N;
  date : list N;
  draft : bool;
  tags : list (list N);
  content : list N;
  file_path : list N
}.

(** [Omit<Post, "file_path">] *)
Record PostData := mkPostData {
  data_slug : list N;
  data_title : list N;
  data_description : list N;
  data_date : list N;
  data_draft : bool;
  data_tags : list (list N);
  data_content : list N
}.

(** [Partial<Post>]: [None] for a property that is not there. *)
Record PartialPost := mkPartialPost {
  new_slug : option (list N);
  new_title : option (list N);
  new_description : option (list N);
  new_date : option (list N);
  new_draft : option bool;
  new_tags : option (list (list N));
  new_content : option (list N);
  new_file_path : option (list N)
}.

Record PostListItem := mkPostListItem {
  item_slug : list N;
  item_title : list N;
  item_description : list N;
  item_date : list N;
  item_draft : bool;
  item_tags : list (list N)
}.

(** [post.slug === slug] *)
Definition hasSlug (s : list N) (post : Post) : bool := bool_decide (slug post = s).

(** [a.findIndex(p)]; [None] is -1. *)
Fixpoint findIndex {A} (p : A → bool) (a : list A) : option nat :=
  match a with
  | [] => None
  | x :: r => if p x then Some 0 else S <$> findIndex p r
  end.

(** The functions below act on [postsStore], passed in and handed back. *)
Definition getMockPosts (postsStore : list Post) : list Post := postsStore.

Definition getMockPostList (includeDrafts : bool) (postsStore : list Post)
    : list PostListItem :=
  (λ post, mkPostListItem (slug post) (title post) (description post) (date post)
                          (draft post) (tags post))
  <$> List.filter (λ post, includeDrafts || negb (draft post)) postsStore.

(** [None] is [undefined]. *)
Definition getMockPost (s : list N) (postsStore : list Post) : option Post :=
  List.find (hasSlug s) postsStore.

Definition createMockPost (data : PostData) (postsStore : list Post)
    : Post * list Post :=
  let newPost :=
    mkPost (data_slug data) (data_title data) (data_description data)
           (data_date data) (data_draft data) (data_tags data) (data_content data)
           (str "src/content/posts/" ++ data_slug data ++ str "/index.md") in
  (newPost, newPost :: postsStore).

(** [{ ...post, ...data }] *)
Definition spread (post : Post) (data : PartialPost) : Post :=
  mkPost (default (slug post) (new_slug data)) (default (title post) (new_title data))
         (default (description post) (new_description data))
         (default (date post) (new_date data)) (default (draft post) (new_draft data))
         (default (tags post) (new_tags data)) (default (content post) (new_content data))
         (default (file_path post) (new_file_path data)).

Definition updateMockPost (s : list N) (data : PartialPost) (postsStore : list Post)
    : option Post * list Post :=
  match findIndex (hasSlug s) postsStore with
  | None => (None, postsStore)
  | Some index =>
    match postsStore !! index with
    | Some post =>
      let postsStore' := <[index := spread post data]> postsStore in
      (postsStore' !! index, postsStore')
    | None => (None, postsStore)
    end
  end.

Definition deleteMockPost (s : list N) (postsStore : list Post) : bool * list Post :=
  match findIndex (hasSlug s) postsStore with
  | None => (false, postsStore)
  | Some index => (true, delete index postsStore)
  end.

End MockData.

(** ** Pages as state machines: auxiliary notions *)

Module PageFacts.
Import JS UseLocalDraft Pages.

(** The condition under which the dialog effect opens the dialog. *)
Definition dialogCondition (p : Page) : bool :=
  let h := hook (world p) in
  match route p with
  | NewPostPage => isHydrated h && hasDraft h
  | EditPostPage _ => isHydrated h && hasDraft h && bool_decide (is_Some (post p))
  end.

(** What an event does to the hook and the storage. *)
Definition eventOnWorld (key : list N) (e : Event) : M unit :=
  match e with
  | ChangeCheckTick getData => changeCheckTick getData
  | AutoSaveTick now getData => autoSaveTick key now getData
  | RestoreDraft => loadDraft key ;; mret ()
  | DiscardDraft => clearDraft key
  | PostLoaded _ => mret ()
  end.

(** Whether the stored string under [key] is JSON. *)
Definition storedJSON (key : list N) (storage : gmap (list N) (list N)) : bool :=
  match storage !! storageKey key with
  | Some saved => match JSON_parse saved with Normal _ => true | Throw _ => false end
  | None => false
  end.

End PageFacts.

Import JS MarkdownEditor UseLocalDraft Pages Spec.
Import JSONSyntax.
Import PageFacts ImageUpload FrontmatterForm.
Import TagInput MarkdownPreview.

(** * Properties *)

(** ** Strings *)

Section strings.
Implicit Types s t : list N.

Lemma substring_prefix s n : substring s 0 (Some n) = take n s.
Proof.
  unfold substring, strlen.
  rewrite Nat.min_0_l, Nat.max_0_l, Nat.sub_0_r, drop_0.
  destruct (Nat.min_spec n (length s)) as [[? ->]|[? ->]]; [done|].
  by rewrite !take_ge by lia.
Qed.

Lemma substring_suffix s n : substring s n None = drop n s.
Proof.
  unfold substring, strlen.
  destruct (decide (n ≤ length s)).
  - replace ((n `min` length s) `min` (length s `min` length s)) with n by lia.
    apply take_ge. rewrite length_drop. lia.
  - replace ((n `min` length s) `min` (length s `min` length s)) with (length s) by lia.
    rewrite !drop_ge by lia. by rewrite take_nil.
Qed.

Lemma substring_ordered s a b :
  a ≤ b → substring s a (Some b) = take (b - a) (drop a s).
Proof.
  intros Hab. unfold substring, strlen.
  set (from := (a `min` length s) `min` (b `min` length s)).
  set (to := (a `min` length s) `max` (b `min` length s)).
  destruct (decide (b ≤ length s)); [|destruct (decide (a ≤ length s))].
  - by replace from with a by lia; replace to with b by lia.
  - replace from with a by lia.
    rewrite !take_ge; [done|rewrite length_drop; lia..].
  - rewrite (drop_ge s a), (drop_ge s from) by lia. by rewrite !take_nil.
Qed.

Lemma substring_empty s a : substring s a (Some a) = [].
Proof. rewrite substring_ordered by done. by rewrite Nat.sub_diag. Qed.

Lemma substring_length s a b :
  a ≤ b → b ≤ length s → length (substring s a (Some b)) = b - a.
Proof.
  intros. rewrite substring_ordered by done.
  rewrite length_take, length_drop. lia.
Qed.

Lemma truthy_nonempty s : truthy s = true ↔ s ≠ [].
Proof. destruct s; cbn; split; congruence. Qed.

Lemma truthy_length s : 0 < length s → truthy s = true.
Proof. destruct s; cbn; [lia|done]. Qed.

(** [endsWith] holds exactly of the strings that are something followed by
    the search string. *)
Lemma endsWith_spec s t : endsWith s t = true ↔ ∃ p, s = p ++ t.
Proof.
  unfold endsWith, strlen. split.
  - destruct (Nat.ltb_spec (length s) (length t)); [done|].
    intros Heq%bool_decide_eq_true.
    exists (take (length s - length t) s).
    rewrite take_ge in Heq by (rewrite length_drop; lia).
    transitivity (take (length s - length t) s ++ drop (length s - length t) s);
      [by rewrite take_drop|by rewrite Heq].
  - intros [p ->]. rewrite length_app.
    destruct (Nat.ltb_spec (length p + length t) (length t)); [lia|].
    apply bool_decide_eq_true.
    replace (length p + length t - length t) with (length p) by lia.
    rewrite drop_app_length. by rewrite take_ge.
Qed.

Lemma endsWith_false s t : endsWith s t = false ↔ ¬ ∃ p, s = p ++ t.
Proof. rewrite <-endsWith_spec. by destruct (endsWith s t). Qed.

Lemma slice_prefix s n : slice s 0 n = take n s.
Proof. unfold slice. by rewrite Nat.sub_0_r, drop_0. Qed.

Lemma slice_suffix s n : slice s n (length s) = drop n s.
Proof. unfold slice. apply take_ge. rewrite length_drop. lia. Qed.

Lemma slice_length s a b : a ≤ b → b ≤ length s → length (slice s a b) = b - a.
Proof. intros. unfold slice. rewrite length_take, length_drop. lia. Qed.

Lemma slice_split s a b :
  a ≤ b → s = slice s 0 a ++ slice s a b ++ slice s b (length s).
Proof.
  intros. rewrite slice_prefix, slice_suffix. unfold slice.
  rewrite <-(take_drop a s) at 1. f_equal.
  rewrite <-(take_drop (b - a) (drop a s)) at 1. f_equal.
  rewrite drop_drop. f_equal. lia.
Qed.

End strings.

(** ** The text mutators *)

Section text_mutators.
Implicit Types value prefix suffix text : list N.

(** All that [insertAtCursor] computes, with the built-ins resolved. *)
Lemma insertAtCursor_unfold value start end_ prefix suffix defaultText :
  insertAtCursor value (Some (mkTextarea start end_)) prefix suffix defaultText =
  let selectedText := substring value start (Some end_) in
  Some (mkEdit
    (take start value ++ prefix ++ or_else selectedText defaultText ++ suffix
       ++ drop end_ value)
    (if truthy selectedText
     then start + length prefix + length selectedText + length suffix
     else start + length prefix)
    (if truthy selectedText
     then start + length prefix + length selectedText + length suffix
     else start + length prefix)).
Proof.
  unfold insertAtCursor, strlen. cbn [selectionStart selectionEnd].
  by rewrite substring_prefix, substring_suffix.
Qed.

Lemma insertOnNewLine_unfold value start end_ text :
  insertOnNewLine value (Some (mkTextarea start end_)) text =
  let before := take start value in
  let prefix :=
    if (0 <? length before) && negb (endsWith before [10%N]) then [10%N] else [] in
  Some (mkEdit (before ++ prefix ++ text ++ drop start value)
               (start + length prefix + length text)
               (start + length prefix + length text)).
Proof.
  unfold insertOnNewLine, strlen. cbn [selectionStart selectionEnd].
  by rewrite substring_prefix, substring_suffix.
Qed.

(** C4. Wrapping a non-empty selection [start < end_ <= length value]: the
    new text is [value[0,start] ++ prefix ++ value[start,end_] ++ suffix ++
    value[end_,length]], and the selection that results is a cursor at
    [start + length prefix + length selected + length suffix]. *)
Theorem insertAtCursor_wraps_selection value start end_ prefix suffix defaultText :
  start < end_ → end_ ≤ length value →
  ∃ e, insertAtCursor value (Some (mkTextarea start end_)) prefix suffix defaultText
       = Some e ∧
    newText e = slice value 0 start ++ prefix ++ slice value start end_ ++ suffix
                  ++ slice value end_ (length value) ∧
    length (slice value start end_) = end_ - start ∧
    collapsedAt e (start + length prefix + length (slice value start end_)
                   + length suffix).
Proof.
  intros Hlt Hle. rewrite insertAtCursor_unfold. cbn zeta.
  assert (substring value start (Some end_) = slice value start end_) as ->
    by (apply substring_ordered; lia).
  assert (length (slice value start end_) = end_ - start) as Hlen
    by (apply slice_length; lia).
  unfold or_else. rewrite truthy_length by lia.
  eexists. split; [done|]. cbn [newText newSelectionStart newSelectionEnd].
  by rewrite slice_prefix, slice_suffix.
Qed.

(** The example of C4: italic over "world" in "Hello world". *)
Lemma insertAtCursor_wraps_selection_witness :
  6 < 11 ∧ 11 ≤ length (str "Hello world") ∧
  ∃ e, insertAtCursor (str "Hello world") (Some (mkTextarea 6 11))
         (str "*") (str "*") (str "italic text") = Some e ∧
       newText e = str "Hello *world*" ∧ collapsedAt e 13.
Proof.
  assert (6 < 11) as H1 by lia.
  assert (11 ≤ length (str "Hello world")) as H2 by (vm_compute; lia).
  split; [exact H1|]. split; [exact H2|].
  destruct (insertAtCursor_wraps_selection (str "Hello world") 6 11
              (str "*") (str "*") (str "italic text") H1 H2)
    as (e & He & Htext & _ & Hsel).
  exists e. split; [exact He|]. split; [exact Htext|exact Hsel].
Defined.

(** The claim C5 makes, refuted at bold on an empty selection at the end of
    "Hello ": the text becomes "Hello **bold text**", but the selection is
    the cursor [8, 8], not the placeholder's range [8, 17]. *)
Lemma bold_on_empty_selection_does_not_select_placeholder :
  ∃ e, actions bold (str "Hello ") (Some (mkTextarea 6 6)) = Some e ∧
       newText e = str "Hello **bold text**" ∧
       newSelectionStart e = 8 ∧ newSelectionEnd e = 8 ∧
       ¬ coversPlaceholder e 6 (str "**") (str "bold text").
Proof.
  eexists. split; [vm_compute; reflexivity|].
  repeat split; try reflexivity.
  intros [_ H]. vm_compute in H. discriminate H.
Qed.

(** C5 as the code has it. With an empty selection at [cursor],
    [insertAtCursor] inserts the placeholder between prefix and suffix and
    leaves a collapsed cursor just after the prefix, that is, in front of the
    placeholder's first character; so do the bold, italic, inline-code, link
    and image commands with their own placeholders. *)
Theorem insertAtCursor_empty_selection value cursor :
  (∀ prefix suffix placeholder,
     ∃ e, insertAtCursor value (Some (mkTextarea cursor cursor))
            prefix suffix placeholder = Some e ∧
          newText e = slice value 0 cursor ++ prefix ++ placeholder ++ suffix
                        ++ slice value cursor (length value) ∧
          collapsedAt e (cursor + length prefix)) ∧
  actions bold value (Some (mkTextarea cursor cursor)) =
    Some (mkEdit (take cursor value ++ str "**bold text**" ++ drop cursor value)
                 (cursor + 2) (cursor + 2)) ∧
  actions italic value (Some (mkTextarea cursor cursor)) =
    Some (mkEdit (take cursor value ++ str "*italic text*" ++ drop cursor value)
                 (cursor + 1) (cursor + 1)) ∧
  actions inlineCode value (Some (mkTextarea cursor cursor)) =
    Some (mkEdit (take cursor value ++ str "`code`" ++ drop cursor value)
                 (cursor + 1) (cursor + 1)) ∧
  actions link value (Some (mkTextarea cursor cursor)) =
    Some (mkEdit (take cursor value ++ str "[link text](url)" ++ drop cursor value)
                 (cursor + 1) (cursor + 1)) ∧
  actions image value (Some (mkTextarea cursor cursor)) =
    Some (mkEdit (take cursor value ++ str "![alt text](url)" ++ drop cursor value)
                 (cursor + 2) (cursor + 2)).
Proof.
  assert (∀ prefix suffix placeholder,
    insertAtCursor value (Some (mkTextarea cursor cursor)) prefix suffix placeholder
    = Some (mkEdit (take cursor value ++ prefix ++ placeholder ++ suffix
                      ++ drop cursor value)
                   (cursor + length prefix) (cursor + length prefix))) as Hgen.
  { intros. rewrite insertAtCursor_unfold. cbn zeta.
    by rewrite substring_empty. }
  split.
  - intros. eexists. split; [apply Hgen|].
    cbn [newText]. by rewrite slice_prefix, slice_suffix.
  - unfold actions. rewrite !Hgen. done.
Qed.

(** C6. [insertOnNewLine] at offset [cursor] puts [nl ++ snippet] between
    the text before the cursor and the text after it, where [nl] is one line
    feed exactly when the text before the cursor is non-empty and is not
    something followed by a line feed, and is empty otherwise; nothing
    follows the snippet; the new cursor is [cursor + length nl + length
    snippet]. On the empty text the result is the snippet alone, and at the
    end of "abc" the heading marker lands on a line of its own. *)
Theorem insertOnNewLine_newline_rule value cursor end_ snippet :
  (∃ e nl,
     insertOnNewLine value (Some (mkTextarea cursor end_)) snippet = Some e ∧
     newText e = slice value 0 cursor ++ nl ++ snippet
                   ++ slice value cursor (length value) ∧
     collapsedAt e (cursor + length nl + length snippet) ∧
     (nl = [10%N] ∨ nl = []) ∧
     (nl = [10%N] ↔
        slice value 0 cursor ≠ [] ∧ ¬ ∃ p, slice value 0 cursor = p ++ [10%N])) ∧
  insertOnNewLine (str "") (Some (mkTextarea 0 0)) (str "# ")
    = Some (mkEdit (str "# ") 2 2) ∧
  insertOnNewLine (str "abc") (Some (mkTextarea 3 3)) (str "# ")
    = Some (mkEdit (str "abc\n# ") 6 6).
Proof.
  split; [|by vm_compute].
  rewrite insertOnNewLine_unfold. cbn zeta.
  rewrite slice_prefix, slice_suffix.
  set (before := take cursor value).
  destruct (endsWith before [10%N]) eqn:Hends.
  - rewrite andb_false_r.
    eexists _, []. split; [done|]. cbn [newText].
    split_and!; [done|done|by right|].
    split; [done|]. intros [_ Hno]. destruct Hno. by apply endsWith_spec.
  - rewrite andb_true_r. apply endsWith_false in Hends.
    destruct before as [|c before'] eqn:Hbefore.
    + eexists _, []. split; [done|]. cbn [newText].
      split_and!; [done|done|by right|].
      split; [done|]. by intros [? _].
    + eexists _, [10%N]. split; [done|]. cbn [newText].
      split_and!; [done|done|by left|done].
Qed.

(** C10. Both mutators leave the text outside the edited region as it was.
    [insertAtCursor] returns [value[0,start]], then the prefix, the selected
    text (the default text when nothing is selected) and the suffix, then
    [value[end_,length]]; [insertOnNewLine] returns [value[0,start]], then
    at most a line feed and the snippet, then [value[start,length]]. When
    [start <= end_ <= length value] the original text is [value[0,start] ++
    selected ++ value[end_,length]] for the same three pieces, every
    character before [start] keeps its offset, and every character from
    [end_] on is found shifted by the difference of the lengths. *)
Theorem mutators_preserve_text_outside value start end_ prefix suffix defaultText snippet :
  let selected := substring value start (Some end_) in
  let inserted := prefix ++ or_else selected defaultText ++ suffix in
  (newText <$> insertAtCursor value (Some (mkTextarea start end_))
                                 prefix suffix defaultText
     = Some (slice value 0 start ++ inserted ++ slice value end_ (length value))) ∧
  (∃ nl, (nl = [10%N] ∨ nl = []) ∧
     newText <$> insertOnNewLine value (Some (mkTextarea start end_)) snippet
     = Some (slice value 0 start ++ (nl ++ snippet)
               ++ slice value start (length value))) ∧
  (start ≤ end_ → end_ ≤ length value →
     selected = slice value start end_ ∧
     value = slice value 0 start ++ selected ++ slice value end_ (length value) ∧
     ∀ e, insertAtCursor value (Some (mkTextarea start end_))
            prefix suffix defaultText = Some e →
       (∀ i, i < start → newText e !! i = value !! i) ∧
       (∀ i, newText e !! (start + length inserted + i) = value !! (end_ + i))).
Proof.
  intros selected inserted. split; [|split].
  - rewrite insertAtCursor_unfold. cbn.
    rewrite slice_prefix, slice_suffix. unfold inserted, selected.
    by rewrite <-!app_assoc.
  - rewrite insertOnNewLine_unfold. cbn zeta.
    rewrite slice_prefix, slice_suffix.
    exists (if (0 <? length (take start value))
                 && negb (endsWith (take start value) [10%N])
            then [10%N] else []).
    split; [destruct (_ && _); auto|].
    cbn. by rewrite <-app_assoc.
  - intros Hse Hel.
    assert (selected = slice value start end_) as Hsel
      by (apply substring_ordered; lia).
    split; [done|]. split; [rewrite Hsel; by apply slice_split|].
    intros e. rewrite insertAtCursor_unfold. cbn zeta. intros [= <-].
    cbn [newText]. fold selected.
    assert (length (take start value) = start) as Hlen
      by (rewrite length_take; lia).
    split.
    + intros i Hi. rewrite lookup_app_l by lia. by apply lookup_take_lt.
    + intros i.
      replace (take start value ++ prefix ++ or_else selected defaultText
                 ++ suffix ++ drop end_ value)
        with ((take start value ++ inserted) ++ drop end_ value)
        by (unfold inserted; by rewrite <-!app_assoc).
      rewrite lookup_app_r by (rewrite length_app; lia).
      rewrite length_app, Hlen, lookup_drop. f_equal. lia.
Qed.

(** C10 at italic over "world" in "Hello world": "Hello " stays in front. *)
Lemma mutators_preserve_text_outside_witness :
  6 ≤ 11 ∧ 11 ≤ length (str "Hello world") ∧
  str "Hello world" = str "Hello " ++ str "world" ++ str "" ∧
  ∀ i, i < 6 → str "Hello *world*" !! i = str "Hello world" !! i.
Proof.
  assert (6 ≤ 11) as H1 by lia.
  assert (11 ≤ length (str "Hello world")) as H2 by (vm_compute; lia).
  split; [exact H1|]. split; [exact H2|].
  destruct (mutators_preserve_text_outside (str "Hello world") 6 11
              (str "*") (str "*") (str "italic text") (str "# "))
    as (_ & _ & Hin).
  destruct (Hin H1 H2) as (_ & Hsplit & Hat).
  split; [exact Hsplit|].
  exact (proj1 (Hat _ eq_refl)).
Defined.

End text_mutators.

(** ** The order behind [Array_sort] *)

Section sorting.
Implicit Types x y z : list N.

Ltac case_ltb :=
  repeat match goal with
  | H : context [(?a <? ?b)%N] |- _ => destruct (N.ltb_spec a b)
  | |- context [(?a <? ?b)%N] => destruct (N.ltb_spec a b)
  end.

Lemma str_ltb_irrefl x : str_ltb x x = false.
Proof. induction x as [|a x IH]; cbn; [done|]. case_ltb; [lia|done]. Qed.

Lemma str_ltb_asym x y : str_ltb x y = true → str_ltb y x = false.
Proof.
  revert y. induction x as [|a x IH]; intros [|b y]; cbn; try done.
  case_ltb; try done; try lia. apply IH.
Qed.

(** Two strings neither of which is less than the other are the same. *)
Lemma str_ltb_trichotomy x y : str_ltb x y = false → str_ltb y x = false → x = y.
Proof.
  revert y. induction x as [|a x IH]; intros [|b y]; cbn; try done.
  case_ltb; try done. intros. f_equal; [lia|by apply IH].
Qed.

Lemma sort_le_trans x y z : sort_le x y → sort_le y z → sort_le x z.
Proof.
  unfold sort_le. revert y z.
  induction x as [|a x IH]; intros [|b y] [|c z]; cbn; try done.
  case_ltb; try done; try lia. apply IH.
Qed.

Global Instance sort_le_transitive : Transitive sort_le.
Proof. intros x y z. apply sort_le_trans. Qed.

Global Instance sort_le_total : Total sort_le.
Proof.
  intros x y. unfold sort_le.
  destruct (str_ltb y x) eqn:H; [right; by apply str_ltb_asym|by left].
Qed.

Global Instance sort_le_antisymm : AntiSymm (=) sort_le.
Proof. intros x y ??. by apply str_ltb_trichotomy. Qed.

Lemma Array_sort_sorted (a : list (list N)) : Sorted sort_le (Array_sort a).
Proof. apply (Sorted_merge_sort sort_le). Qed.

Lemma Array_sort_permutation (a : list (list N)) : Array_sort a ≡ₚ a.
Proof. apply (merge_sort_Permutation sort_le). Qed.

(** The sorted array depends on the elements only, not on their order. *)
Lemma Array_sort_order_insensitive (a b : list (list N)) :
  a ≡ₚ b → Array_sort a = Array_sort b.
Proof.
  intros Hab. apply (Sorted_unique sort_le); [apply Array_sort_sorted..|].
  by rewrite !Array_sort_permutation.
Qed.

End sorting.

(** ** The hook *)

Section hook.
Implicit Types (w : World) (key now : list N) (d : DraftFields).

Ltac run_M :=
  cbv [saveDraft checkForChanges loadDraft clearDraft hydrationEffect
       changeCheckTick autoSaveTick mbind M_bind mret M_ret throw try_catch eval
       modifyHook setStatus setLastSaved setHasUnsavedChanges setHasDraft
       setIsHydrated setLastSavedHashRef getLastSavedHashRef getItem setItem
       removeItem];
  cbn [hook localStorage setItemCalls status lastSaved hasUnsavedChanges
       hasDraft isHydrated lastSavedHashRef fst snd].

Ltac destruct_world w := destruct w as [[? ? ? ? ? ?] ? ?].

(** What each function of the hook does to the world, in one step. *)
Lemma checkForChanges_None w : checkForChanges None w = (Normal false, w).
Proof. done. Qed.

Lemma checkForChanges_Some d w :
  checkForChanges (Some d) w =
  let h := hook w in
  match lastSavedHashRef h with
  | None =>
    (Normal false,
     mkWorld (mkHook (status h) (lastSaved h) (hasUnsavedChanges h) (hasDraft h)
                     (isHydrated h) (Some (dataToHash d)))
             (localStorage w) (setItemCalls w))
  | Some last =>
    let hasChanges := negb (bool_decide (last = dataToHash d)) in
    (Normal hasChanges,
     mkWorld (mkHook (status h) (lastSaved h) hasChanges (hasDraft h)
                     (isHydrated h) (Some last))
             (localStorage w) (setItemCalls w))
  end.
Proof. destruct_world w. run_M. by destruct lastSavedHashRef0. Qed.

Lemma saveDraft_None key now w : saveDraft key now None w = (Normal (), w).
Proof. done. Qed.

Lemma saveDraft_Some key now d w :
  saveDraft key now (Some d) w =
  if bool_decide (lastSavedHashRef (hook w) = Some (dataToHash d))
  then (Normal (), w)
  else
    let snapshot := JSON_stringify (DraftData_object (mkDraftData d now)) in
    (Normal (),
     mkWorld (mkHook Saved (Some (DateNow now)) false true (isHydrated (hook w))
                     (Some (dataToHash d)))
             (<[storageKey key := snapshot]> (localStorage w))
             ((storageKey key, snapshot) :: setItemCalls w)).
Proof. destruct_world w. run_M. by case_bool_decide. Qed.

Lemma loadDraft_eq key w :
  loadDraft key w =
  (Normal match localStorage w !! storageKey key with
          | Some saved =>
            if truthy saved
            then match JSON_parse saved with Normal v => v | Throw _ => JNull end
            else JNull
          | None => JNull
          end, w).
Proof.
  destruct_world w. run_M.
  destruct (_ !! _) as [saved|]; [|done].
  destruct (truthy saved); [|done]. by destruct (JSON_parse saved).
Qed.

(** Without a stored string [JSON.parse] accepts, the hydration effect only
    sets [isHydrated]. *)
Lemma hydrationEffect_nothing_usable key w :
  match localStorage w !! storageKey key with
  | Some saved => ∃ e, JSON_parse saved = Throw e
  | None => True
  end →
  hydrationEffect key w =
  (Normal (),
   mkWorld (mkHook (status (hook w)) (lastSaved (hook w))
                   (hasUnsavedChanges (hook w)) (hasDraft (hook w)) true
                   (lastSavedHashRef (hook w)))
           (localStorage w) (setItemCalls w)).
Proof.
  destruct_world w. run_M.
  destruct (_ !! _) as [saved|]; [|done].
  intros [e He]. destruct (truthy saved); [|done]. by rewrite He.
Qed.





Lemma dataToHash_ext d1 d2 :
  title d1 = title d2 → slug d1 = slug d2 → description d1 = description d2 →
  date d1 = date d2 → draft d1 = draft d2 → content d1 = content d2 →
  Array_sort (tags d1) = Array_sort (tags d2) →
  dataToHash d1 = dataToHash d2.
Proof. unfold dataToHash. by intros -> -> -> -> -> -> ->. Qed.

(** C2. Two states that agree on title, slug, description, date, draft and
    content and whose tags are permutations of each other have the same
    fingerprint, whatever [savedAt] a snapshot of either carries; hence,
    after a [saveDraft] of the first, [checkForChanges] on the second
    returns false and leaves [hasUnsavedChanges] false. *)
Theorem dataToHash_tag_order_insensitive d1 d2 :
  title d1 = title d2 → slug d1 = slug d2 → description d1 = description d2 →
  date d1 = date d2 → draft d1 = draft d2 → content d1 = content d2 →
  tags d1 ≡ₚ tags d2 →
  dataToHash d1 = dataToHash d2 ∧
  (∀ savedAt1 savedAt2,
     dataToHash (data (mkDraftData d1 savedAt1))
     = dataToHash (data (mkDraftData d2 savedAt2))) ∧
  (∀ key now w,
     let w1 := (saveDraft key now (Some d1) w).2 in
     (checkForChanges (Some d2) w1).1 = Normal false ∧
     hasUnsavedChanges (hook (checkForChanges (Some d2) w1).2) = false).
Proof.
  intros Ht Hs Hd Hda Hdr Hc Htags.
  assert (dataToHash d1 = dataToHash d2) as Hhash
    by (apply dataToHash_ext; try done; by apply Array_sort_order_insensitive).
  split; [done|]. split; [done|].
  intros key now w w1.
  assert (lastSavedHashRef (hook w1) = Some (dataToHash d1)) as Href.
  { unfold w1. rewrite saveDraft_Some. by case_bool_decide. }
  rewrite checkForChanges_Some. cbn zeta. rewrite Href, Hhash.
  by rewrite bool_decide_eq_true_2.
Qed.

(** C2 on the tags [a, b] saved and [b, a] live. *)
Lemma dataToHash_tag_order_insensitive_witness :
  tags samplePost ≡ₚ tags samplePostTagsSwapped ∧
  tags samplePost ≠ tags samplePostTagsSwapped ∧
  dataToHash samplePost = dataToHash samplePostTagsSwapped.
Proof.
  assert (tags samplePost ≡ₚ tags samplePostTagsSwapped) as Hperm
    by apply perm_swap.
  split; [exact Hperm|]. split; [discriminate|].
  exact (proj1 (dataToHash_tag_order_insensitive samplePost samplePostTagsSwapped
                  eq_refl eq_refl eq_refl eq_refl eq_refl eq_refl Hperm)).
Defined.

(** The hydration effect never touches the baseline. *)
Lemma hydrationEffect_keeps_baseline key w :
  lastSavedHashRef (hook (hydrationEffect key w).2) = lastSavedHashRef (hook w).
Proof.
  destruct_world w. run_M.
  destruct (_ !! _) as [saved|]; [|done].
  destruct (truthy saved); [|done].
  destruct (JSON_parse saved) as [v|]; [|done].
  by destruct (getProp v _).
Qed.

Lemma world_commit (p : Page) : world (commit p) = world p.
Proof.
  unfold commit, dialogEffect. case_bool_decide; [done|].
  by destruct (match route p with NewPostPage => _ | EditPostPage _ => _ end).
Qed.

(** A page that has just been mounted has no baseline. *)
Lemma mount_no_baseline (r : Route) (storage : gmap (list N) (list N)) :
  lastSavedHashRef (hook (world (mount r storage))) = None.
Proof.
  unfold mount, withWorld. rewrite world_commit. cbn [world].
  by rewrite hydrationEffect_keeps_baseline, world_commit.
Qed.

(** C3. A hook that has just been mounted has no baseline. While there is
    none, an evaluation in which the accessor has no data changes nothing,
    and the first evaluation in which it has data returns false, records
    that state's fingerprint as the baseline and touches nothing else. As
    long as that baseline stands, an evaluation returns true exactly when
    the fingerprint of its state differs from it, so only on a state that
    differs from the baseline state, and keeps the baseline. *)
Theorem checkForChanges_first_evaluation w d :
  (∀ (r : Route) (storage : gmap (list N) (list N)),
     lastSavedHashRef (hook (world (mount r storage))) = None) ∧
  (lastSavedHashRef (hook w) = None →
   checkForChanges None w = (Normal false, w) ∧
   checkForChanges (Some d) w =
     (Normal false,
      mkWorld (mkHook (status (hook w)) (lastSaved (hook w))
                      (hasUnsavedChanges (hook w)) (hasDraft (hook w))
                      (isHydrated (hook w)) (Some (dataToHash d)))
              (localStorage w) (setItemCalls w)) ∧
   ∀ w1 d', lastSavedHashRef (hook w1) = Some (dataToHash d) →
     (checkForChanges (Some d') w1).1
       = Normal (negb (bool_decide (dataToHash d' = dataToHash d))) ∧
     ((checkForChanges (Some d') w1).1 = Normal true → d' ≠ d) ∧
     lastSavedHashRef (hook (checkForChanges (Some d') w1).2)
       = Some (dataToHash d)).
Proof.
  split; [apply mount_no_baseline|].
  intros Hnone. split; [done|]. split.
  { rewrite checkForChanges_Some. cbn zeta. by rewrite Hnone. }
  intros w1 d' Hbase. rewrite checkForChanges_Some. cbn zeta. rewrite Hbase.
  cbn [snd fst hook lastSavedHashRef].
  split_and!; [|intros [= H] ->; by rewrite bool_decide_eq_true_2 in H|done].
  do 2 f_equal. apply bool_decide_ext. split; congruence.
Qed.

(** C3 on the new-post page mounted over an empty storage: the first look
    at a post reports no change, the next look at the edited post reports
    one. *)
Lemma checkForChanges_first_evaluation_witness :
  let w := world (mount NewPostPage ∅) in
  lastSavedHashRef (hook w) = None ∧
  (checkForChanges (Some samplePost) w).1 = Normal false ∧
  (checkForChanges (Some samplePostEdited)
     (checkForChanges (Some samplePost) w).2).1 = Normal true.
Proof.
  intros w.
  destruct (checkForChanges_first_evaluation w samplePost) as (Hmount & Hcheck).
  assert (lastSavedHashRef (hook w) = None) as Hnone by apply Hmount.
  split; [exact Hnone|].
  destruct (Hcheck Hnone) as (_ & Hfirst & Hlater).
  split; [exact (f_equal fst Hfirst)|].
  exact (eq_trans (proj1 (Hlater (checkForChanges (Some samplePost) w).2
                            samplePostEdited eq_refl)) eq_refl).
Defined.

(** What [saveDraft] stores parses back into the snapshot it was made from,
    and that is a valid snapshot. *)
Example saved_snapshot_parses :
  let snapshot := mkDraftData samplePost (str "2024-01-01T10:00:05.000Z") in
  JSON_parse (JSON_stringify (DraftData_object snapshot))
    = Normal (DraftData_object snapshot) ∧
  parsesAsSnapshot (JSON_stringify (DraftData_object snapshot)) = true.
Proof. vm_compute. done. Qed.

(** C7 fails on the code. The string "{}" stored under a page's key is
    JSON but no snapshot. [loadDraft] hands it back as the draft instead of
    [null], the hydration effect sets [hasDraft], and the page opens the
    recovery dialog for it: the new-post page at mount, the edit page when
    its post has loaded. *)
Theorem non_snapshot_is_loaded_as_draft :
  let new := mount NewPostPage {[ storageKey (draftKey NewPostPage) := str "{}" ]} in
  let edit := step (mount (EditPostPage (str "hello"))
                      {[ storageKey (draftKey (EditPostPage (str "hello"))) := str "{}" ]})
                   (PostLoaded 1) in
  JSON_parse (str "{}") = Normal (JObject []) ∧
  isDraftData (JObject []) = false ∧ parsesAsSnapshot (str "{}") = false ∧
  loadDraft (draftKey NewPostPage) (world new) = (Normal (JObject []), world new) ∧
  hasDraft (hook (world new)) = true ∧ showDraftDialog new = true ∧
  loadDraft (draftKey (EditPostPage (str "hello"))) (world edit)
    = (Normal (JObject []), world edit) ∧
  hasDraft (hook (world edit)) = true ∧ showDraftDialog edit = true.
Proof. vm_compute. split_and!; done. Qed.

(** The part of C7 the code keeps. When nothing is stored under the key,
    or what is stored is not JSON ([JSON.parse] throws), [loadDraft] returns [null]
    without throwing and changes nothing, and the hydration effect completes
    without throwing and leaves [hasDraft] as it was, which is false on a
    fresh mount. Such a stored string does not parse as a valid snapshot;
    the code rejects no other kind of invalid snapshot. *)
Theorem loadDraft_unparseable_is_absent key w :
  (localStorage w !! storageKey key = None ∨
   ∃ saved e, localStorage w !! storageKey key = Some saved ∧
              JSON_parse saved = Throw e ∧ parsesAsSnapshot saved = false) →
  loadDraft key w = (Normal JNull, w) ∧
  (hydrationEffect key w).1 = Normal () ∧
  hasDraft (hook (hydrationEffect key w).2) = hasDraft (hook w) ∧
  (hook w = initialHook → hasDraft (hook (hydrationEffect key w).2) = false).
Proof.
  intros Hstored.
  assert (match localStorage w !! storageKey key with
          | Some saved => ∃ e, JSON_parse saved = Throw e
          | None => True
          end) as Hnot.
  { destruct Hstored as [->|(saved & e & -> & He & _)]; eauto. }
  rewrite loadDraft_eq, (hydrationEffect_nothing_usable _ _ Hnot).
  cbn [fst snd hook hasDraft]. split_and!; [|done|done|by intros ->].
  destruct (localStorage w !! storageKey key) as [saved|]; [|done].
  destruct Hnot as [e ->]. by destruct (truthy saved).
Qed.

Lemma JSON_parse_Throw_not_snapshot saved e :
  JSON_parse saved = Throw e → parsesAsSnapshot saved = false.
Proof. unfold parsesAsSnapshot. by intros ->. Qed.

(** C7 on a stored string cut off in the middle. *)
Lemma loadDraft_unparseable_is_absent_witness :
  let key := draftKey NewPostPage in
  let w := worldWithStored (str "{oops") in
  JSON_parse (str "{oops") = Throw SyntaxError ∧
  loadDraft key w = (Normal JNull, w) ∧
  hasDraft (hook (hydrationEffect key w).2) = false.
Proof.
  intros key w.
  assert (JSON_parse (str "{oops") = Throw SyntaxError) as Hthrow
    by (vm_compute; reflexivity).
  assert (localStorage w !! storageKey key = Some (str "{oops")) as Hget
    by (vm_compute; reflexivity).
  destruct (loadDraft_unparseable_is_absent key w
              (or_intror (ex_intro _ _ (ex_intro _ _
                 (conj Hget (conj Hthrow
                    (JSON_parse_Throw_not_snapshot _ _ Hthrow)))))))
    as (Hload & _ & _ & Hfresh).
  split; [exact Hthrow|]. split; [exact Hload|exact (Hfresh eq_refl)].
Defined.






End hook.

(** ** The recovery dialog *)

Section recovery_dialog.
Implicit Types (p : Page).

(** After a render is committed, the dialog effect has seen the current
    dependencies. *)
Lemma commit_synced p : dialogEffectDeps (commit p) = Some (currentDeps (commit p)).
Proof.
  unfold commit. case_bool_decide as Hdeps; [done|].
  unfold dialogEffect, currentDeps.
  by destruct (match route p with NewPostPage => _ | EditPostPage _ => _ end).
Qed.

(** A dirty-check tick does not touch what the dialog effect depends on, so
    it never opens the dialog. *)
Lemma changeCheckTick_keeps_dialog p getData :
  dialogEffectDeps p = Some (currentDeps p) →
  showDraftDialog (step p (ChangeCheckTick getData)) = showDraftDialog p.
Proof.
  intros Hsync. cbn [step]. unfold withWorld, changeCheckTick.
  assert (∀ w, let w' := ((checkForChanges getData ≫= λ _, mret ()) w).2 in
               isHydrated (hook w') = isHydrated (hook w) ∧
               hasDraft (hook w') = hasDraft (hook w)) as Hsame.
  { intros w. unfold mbind, M_bind. destruct getData as [d|]; [|done].
    rewrite checkForChanges_Some. cbn zeta.
    by destruct (lastSavedHashRef (hook w)). }
  destruct (Hsame (world p)) as [Hh Hd].
  unfold commit, currentDeps in *. cbn [world post dialogEffectDeps] in *.
  rewrite Hh, Hd. by rewrite bool_decide_eq_true_2.
Qed.

(** C9 fails on the code. On the new-post page with a draft stored by an
    earlier session the dialog opens at mount; the user discards the draft
    and types on; the next auto-save tick stores a draft, sets [hasDraft],
    and the dialog effect opens the dialog a second time in the same mount.
    The edit page does the same once its post has loaded. *)
Theorem recovery_dialog_reopens_after_discard :
  let stored := JSON_stringify (DraftData_object (mkDraftData samplePost (str "09:00:00"))) in
  let new := mount NewPostPage {[ storageKey (draftKey NewPostPage) := stored ]} in
  let edit := mount (EditPostPage (str "hello"))
                {[ storageKey (draftKey (EditPostPage (str "hello"))) := stored ]} in
  let events := [ChangeCheckTick (Some samplePost); DiscardDraft;
                 ChangeCheckTick (Some samplePostEdited);
                 AutoSaveTick (str "10:00:05") (Some samplePostEdited)] in
  showDraftDialog <$> rev (history new events) = [true; true; false; false; true] ∧
  promptsShown new events = 2 ∧
  showDraftDialog <$> rev (history edit (PostLoaded 1 :: events))
    = [false; true; true; false; false; true] ∧
  promptsShown edit (PostLoaded 1 :: events) = 2.
Proof. vm_compute. done. Qed.

End recovery_dialog.

(** * Further properties *)

(** ** [JSON.parse] after [JSON.stringify] *)

Section json.

Ltac case_N :=
  repeat match goal with
  | |- context [(?a =? ?b)%N] => destruct (N.eqb_spec a b)
  | |- context [(?a <? ?b)%N] => destruct (N.ltb_spec a b)
  | |- context [(?a <=? ?b)%N] => destruct (N.leb_spec a b)
  end.

Lemma hexValue_hexDigit d : (d < 16)%N → hexValue (hexDigit d) = Some d.
Proof.
  intros H. unfold hexDigit, hexValue, isDigit.
  destruct (N.ltb_spec d 10).
  - case_N; cbn; try lia. f_equal. lia.
  - case_N; cbn; try lia. f_equal. lia.
Qed.

Lemma hex_digits_value c :
  (c < 65536)%N →
  (16 * (16 * (16 * (16 * 0 + (c / 4096) `mod` 16) + (c / 256) `mod` 16)
     + (c / 16) `mod` 16) + c `mod` 16 = c)%N.
Proof.
  intros H.
  pose proof (N.div_mod c 16 ltac:(lia)).
  pose proof (N.div_mod (c / 16) 16 ltac:(lia)).
  pose proof (N.div_mod (c / 16 / 16) 16 ltac:(lia)).
  rewrite !N.Div0.div_div in *.
  change (16 * 16)%N with 256%N in *. change (256 * 16)%N with 4096%N in *.
  assert (c / 4096 < 16)%N by (apply N.Div0.div_lt_upper_bound; lia).
  rewrite (N.mod_small (c / 4096) 16) by done.
  lia.
Qed.

Lemma lex_step st c toks s st' toks' :
  lexStep st c toks = Some (st', toks') → lex st toks (c :: s) = lex st' toks' s.
Proof. intros H. cbn [lex]. by rewrite H. Qed.

Lemma lexStep_LHex acc count val d toks :
  (d < 16)%N →
  lexStep (LHex acc count val) (hexDigit d) toks =
  Some (if count =? 3 then LStr ((16 * val + d)%N :: acc)
        else LHex acc (S count) (16 * val + d)%N, toks).
Proof.
  intros Hd. cbn [lexStep]. rewrite hexValue_hexDigit by done.
  by destruct (count =? 3).
Qed.

(** Lexing the escape of a code unit inside a string gives it back. *)
Lemma lex_UnicodeEscape c acc toks rest :
  (c < 65536)%N →
  lex (LStr acc) toks (UnicodeEscape c ++ rest) = lex (LStr (c :: acc)) toks rest.
Proof.
  intros Hc. unfold UnicodeEscape. cbn [app].
  rewrite (lex_step _ _ _ _ (LEsc acc) toks) by done.
  rewrite (lex_step _ _ _ _ (LHex acc 0 0%N) toks) by done.
  do 4 (erewrite lex_step by (apply lexStep_LHex, N.mod_lt; lia); cbn [Nat.eqb]).
  by rewrite hex_digits_value.
Qed.

(** A character that [quoteChars] copies is read back as itself. *)
Lemma lexStep_LStr_plain c acc toks :
  c ≠ 34%N → c ≠ 92%N → (32 ≤ c)%N →
  lexStep (LStr acc) c toks = Some (LStr (c :: acc), toks).
Proof.
  intros. cbn [lexStep].
  destruct (N.eqb_spec c 34); [done|]. destruct (N.eqb_spec c 92); [done|].
  destruct (N.ltb_spec c 32); [lia|done].
Qed.

Lemma lex_quoteChars_aux n : ∀ s acc toks rest,
  length s ≤ n →
  lex (LStr acc) toks (quoteChars s ++ 34%N :: rest)
  = lex LStart (TScalar (JString (rev acc ++ s)) :: toks) rest.
Proof.
  induction n as [|n IH]; intros [|c r] acc toks rest Hlen;
    try (cbn in Hlen; lia).
  - cbn. by rewrite app_nil_r.
  - cbn. by rewrite app_nil_r.
  - assert (∀ acc', acc' = c :: acc →
      lex (LStr acc') toks (quoteChars r ++ 34%N :: rest)
      = lex LStart (TScalar (JString (rev acc ++ c :: r)) :: toks) rest) as Hnext.
    { intros acc' ->. rewrite IH by (cbn in Hlen; lia).
      cbn [rev]. by rewrite <-app_assoc. }
    cbn [quoteChars].
    repeat match goal with
    | |- context [(c =? ?k)%N] => destruct (N.eqb_spec c k) as [->|?]
    end; try (cbn -[quoteChars]; by apply Hnext).
    destruct (N.ltb_spec c 32).
    { rewrite <-app_assoc, lex_UnicodeEscape by lia. by apply Hnext. }
    unfold isLeadingSurrogate, isTrailingSurrogate.
    destruct (N.leb_spec 55296 c); cbn [andb].
    + destruct (N.leb_spec c 56319); cbn [andb].
      * destruct r as [|d r'].
        { rewrite lex_UnicodeEscape by lia. by apply Hnext. }
        destruct (N.leb_spec 56320 d); cbn [andb];
          [destruct (N.leb_spec d 57343); cbn [andb]|].
        -- cbn [app].
           do 2 (erewrite lex_step by (apply lexStep_LStr_plain; lia)).
           rewrite IH by (cbn in Hlen; lia).
           cbn [rev]. by rewrite <-!app_assoc.
        -- rewrite <-app_assoc, lex_UnicodeEscape by lia. by apply Hnext.
        -- rewrite <-app_assoc, lex_UnicodeEscape by lia. by apply Hnext.
      * destruct (N.leb_spec 56320 c); cbn [andb];
          [destruct (N.leb_spec c 57343); cbn [andb]|].
        -- rewrite <-app_assoc, lex_UnicodeEscape by lia. by apply Hnext.
        -- cbn [app]. erewrite lex_step by (apply lexStep_LStr_plain; lia).
           by apply Hnext.
        -- lia.
    + destruct (N.leb_spec 56320 c); [lia|]. cbn [andb].
      cbn [app]. erewrite lex_step by (apply lexStep_LStr_plain; lia).
           by apply Hnext.
Qed.

(** A quoted string is read back as the string it quotes. *)
Lemma lex_QuoteJSONString s toks rest :
  lex LStart toks (QuoteJSONString s ++ rest)
  = lex LStart (TScalar (JString s) :: toks) rest.
Proof.
  unfold QuoteJSONString. rewrite <-!app_assoc. cbn [app].
  rewrite (lex_step _ _ _ _ (LStr []) toks) by done.
  by rewrite (lex_quoteChars_aux (length s)).
Qed.

(** Induction over values that reaches into arrays and objects. *)
Lemma JSValue_nested_ind (P : JSValue → Prop) :
  P JNull → (∀ b, P (JBool b)) → (∀ lit, P (JNumber lit)) → (∀ s, P (JString s)) →
  (∀ items, Forall P items → P (JArray items)) →
  (∀ props, Forall (λ kv, P kv.2) props → P (JObject props)) →
  ∀ v, P v.
Proof.
  intros Hnull Hbool Hnum Hstr Harr Hobj.
  refine (fix IH v := match v with
    | JNull => Hnull
    | JBool b => Hbool b
    | JNumber lit => Hnum lit
    | JString s => Hstr s
    | JArray items => Harr items
        ((fix go l : Forall P l :=
            match l with
            | [] => @List.Forall_nil _ P
            | x :: l' => @List.Forall_cons _ P x l' (IH x) (go l')
            end) items)
    | JObject props => Hobj props
        ((fix go l : Forall (λ kv, P kv.2) l :=
            match l with
            | [] => @List.Forall_nil _ _
            | kv :: l' => @List.Forall_cons _ (λ kv, P kv.2) kv l' (IH kv.2) (go l')
            end) props)
    end).
Qed.

Lemma lexesTo_app text1 ts1 text2 ts2 :
  lexesTo text1 ts1 → lexesTo text2 ts2 → lexesTo (text1 ++ text2) (ts1 ++ ts2).
Proof.
  intros H1 H2 toks rest.
  by rewrite <-app_assoc, H1, H2, rev_app_distr, <-app_assoc.
Qed.

Lemma lexesTo_joinComma parts tss :
  Forall2 lexesTo parts tss → lexesTo (joinComma parts) (commaSep tss).
Proof.
  induction 1 as [|p ts parts tss Hp Hrest IH]; [done|].
  destruct Hrest as [|p' ts' parts' tss' Hp' Hrest']; [done|].
  change (lexesTo (p ++ str "," ++ joinComma (p' :: parts'))
                  (ts ++ [TComma] ++ commaSep (ts' :: tss'))).
  apply lexesTo_app; [done|]. apply lexesTo_app; [done|apply IH].
Qed.

Lemma lexesTo_stringify v : numberFree v = true → lexesTo (JSON_stringify v) (tokens v).
Proof.
  induction v as [|[]|lit|s|items IH|props IH] using JSValue_nested_ind;
    intros Hfree; try done.
  - intros toks rest. apply lex_QuoteJSONString.
  - cbn [JSON_stringify tokens].
    apply (lexesTo_app (str "[") [TLBracket]); [done|].
    apply lexesTo_app; [|done].
    apply lexesTo_joinComma. cbn [numberFree] in Hfree.
    induction IH as [|x items Hx _ IHitems]; [constructor|].
    cbn in Hfree. apply andb_true_iff in Hfree as [??].
    constructor; auto.
  - cbn [JSON_stringify tokens].
    apply (lexesTo_app (str "{") [TLBrace]); [done|].
    apply lexesTo_app; [|done].
    apply lexesTo_joinComma. cbn [numberFree] in Hfree.
    induction IH as [|[k x] props Hx _ IHprops]; [constructor|].
    cbn in Hfree. apply andb_true_iff in Hfree as [??].
    constructor; [|auto].
    apply (lexesTo_app _ [TScalar (JString k)]);
      [intros ??; apply lex_QuoteJSONString|].
    apply (lexesTo_app (str ":") [TColon]); [done|]. by apply Hx.
Qed.

Lemma parse_array_items items : ∀ acc e stack rest,
  Forall (λ x, parsesAs (tokens x) x) items → items ≠ [] →
  e = EValue ∨ e = EValueOrClose →
  parseTokens e (InArray acc :: stack)
    (commaSep (map tokens items) ++ TRBracket :: rest)
  = parseTokens (supply (JArray (rev acc ++ items)) stack).1
                (supply (JArray (rev acc ++ items)) stack).2 rest.
Proof.
  induction items as [|x items IH]; intros acc e stack rest Hall Hne He; [done|].
  apply Forall_cons in Hall as [Hx Hall].
  destruct items as [|y items].
  - cbn [map commaSep]. rewrite Hx by done. cbn. by destruct stack as [|[]].
  - change (commaSep (map tokens (x :: y :: items)))
      with (tokens x ++ TComma :: commaSep (map tokens (y :: items))).
    rewrite <-app_assoc, Hx by done. cbn [supply fst snd app parseTokens parseStep].
    rewrite IH by auto. cbn [rev]. by rewrite <-app_assoc.
Qed.

Lemma parse_object_props props : ∀ acc key e stack rest,
  Forall (λ kv, parsesAs (tokens kv.2) kv.2) props → props ≠ [] →
  e = EKeyOrClose ∨ e = EKey →
  parseTokens e (InObject acc key :: stack)
    (commaSep (map (fun kv => match kv with
                              | (k, x) => TScalar (JString k) :: TColon :: tokens x
                              end) props) ++ TRBrace :: rest)
  = parseTokens (supply (JObject (rev acc ++ props)) stack).1
                (supply (JObject (rev acc ++ props)) stack).2 rest.
Proof.
  induction props as [|[k x] props IH]; intros acc key e stack rest Hall Hne He;
    [done|].
  apply Forall_cons in Hall as [Hx Hall]. cbn [snd] in Hx.
  assert (∀ more,
    parseTokens e (InObject acc key :: stack)
      ((TScalar (JString k) :: TColon :: tokens x) ++ more)
    = parseTokens ECommaOrClose (InObject ((k, x) :: acc) k :: stack) more) as Hone.
  { intros more. destruct He as [-> | ->]; cbn [app parseTokens parseStep];
      by rewrite Hx by auto. }
  destruct props as [|[k' y] props].
  - cbn [map commaSep]. rewrite Hone. cbn. by destruct stack as [|[]].
  - change (commaSep (map _ ((k, x) :: (k', y) :: props)))
      with ((TScalar (JString k) :: TColon :: tokens x) ++ TComma ::
            commaSep (map (fun kv => match kv with
                              | (k, x) => TScalar (JString k) :: TColon :: tokens x
                              end) ((k', y) :: props))).
    rewrite <-app_assoc, Hone. cbn [app parseTokens parseStep].
    rewrite IH by auto. cbn [rev]. by rewrite <-app_assoc.
Qed.

Lemma parsesAs_tokens v : parsesAs (tokens v) v.
Proof.
  induction v as [|b|lit|s|items IH|props IH] using JSValue_nested_ind.
  1-4: intros e stack rest [-> | ->]; cbn [tokens app parseTokens parseStep];
    by destruct (supply _ stack).
  - intros e stack rest He. cbn [tokens]. destruct items as [|x items].
    + destruct He as [-> | ->]; cbn; by destruct stack as [|[]].
    + transitivity (parseTokens EValueOrClose (InArray [] :: stack)
                      (commaSep (map tokens (x :: items)) ++ TRBracket :: rest)).
      { rewrite <-app_comm_cons, <-app_assoc. by destruct He as [-> | ->]. }
      by rewrite parse_array_items by auto.
  - intros e stack rest He. cbn [tokens]. destruct props as [|kv props].
    + destruct He as [-> | ->]; cbn; by destruct stack as [|[]].
    + transitivity (parseTokens EKeyOrClose (InObject [] [] :: stack)
                      (commaSep (map (fun kv => match kv with
                              | (k, x) => TScalar (JString k) :: TColon :: tokens x
                              end) (kv :: props)) ++ TRBrace :: rest)).
      { rewrite <-app_comm_cons, <-app_assoc. by destruct He as [-> | ->]. }
      by rewrite parse_object_props by auto.
Qed.

(** [JSON.parse] undoes [JSON.stringify] on every value without numbers. *)
Lemma JSON_parse_stringify v :
  numberFree v = true → JSON_parse (JSON_stringify v) = Normal v.
Proof.
  intros Hfree. unfold JSON_parse.
  pose proof (lexesTo_stringify v Hfree [] []) as Hlex.
  rewrite !app_nil_r in Hlex. rewrite Hlex. cbn [lex mbind option_bind].
  rewrite rev_involutive.
  pose proof (parsesAs_tokens v EValue [] [] (or_introl eq_refl)) as Hparse.
  rewrite app_nil_r in Hparse. by rewrite Hparse.
Qed.

End json.

(** ** The hook, continued *)

Section hook_more.
Implicit Types (w : World) (key now : list N) (d : DraftFields).

Ltac run_hook :=
  cbv [saveDraft checkForChanges loadDraft clearDraft hydrationEffect
       changeCheckTick autoSaveTick mbind M_bind mret M_ret throw try_catch eval
       modifyHook setStatus setLastSaved setHasUnsavedChanges setHasDraft
       setIsHydrated setLastSavedHashRef getLastSavedHashRef getItem setItem
       removeItem];
  cbn [hook localStorage setItemCalls status lastSaved hasUnsavedChanges
       hasDraft isHydrated lastSavedHashRef fst snd].

Lemma numberFree_strings (l : list (list N)) :
  forallb numberFree (JString <$> l) = true.
Proof. by induction l. Qed.

Lemma isStringArray_strings (l : list (list N)) :
  isStringArray (Some (JArray (JString <$> l))) = true.
Proof. cbn. by induction l. Qed.

Lemma numberFree_DraftData_object (s : DraftData) :
  numberFree (DraftData_object s) = true.
Proof. cbn. by rewrite numberFree_strings. Qed.

Lemma isDraftData_DraftData_object (s : DraftData) :
  isDraftData (DraftData_object s) = true.
Proof.
  destruct s as [[t sl de da dr tg c] sa].
  pose proof (isStringArray_strings tg) as Htags.
  unfold DraftData_object. cbn [data savedAt title slug description date draft tags content].
  generalize dependent (JString <$> tg). intros items Hitems.
  vm_compute. vm_compute in Hitems. by rewrite Hitems.
Qed.

Lemma truthy_snapshot (s : DraftData) :
  truthy (JSON_stringify (DraftData_object s)) = true.
Proof. done. Qed.

(** What [saveDraft] has written, [loadDraft] reads back. *)
Lemma loadDraft_stored_snapshot key w (s : DraftData) :
  localStorage w !! storageKey key = Some (JSON_stringify (DraftData_object s)) →
  loadDraft key w = (Normal (DraftData_object s), w).
Proof.
  intros Hstored. rewrite loadDraft_eq, Hstored.
  rewrite truthy_snapshot.
  by rewrite JSON_parse_stringify by apply numberFree_DraftData_object.
Qed.

(** What [saveDraft] writes, [loadDraft] reads back: when the call writes
    (the last-saved fingerprint differs), a [loadDraft] under the same key
    returns the snapshot just written, without throwing and without
    changing anything. The snapshot has the shape of a [DraftData]; its tags
    stand in the order the accessor gave them (only the fingerprint sorts
    them), and its [savedAt] is the time of the write. *)
Theorem saveDraft_then_loadDraft key now d w :
  lastSavedHashRef (hook w) ≠ Some (dataToHash d) →
  let w' := (saveDraft key now (Some d) w).2 in
  let snapshot := mkDraftData d now in
  loadDraft key w' = (Normal (DraftData_object snapshot), w') ∧
  isDraftData (DraftData_object snapshot) = true ∧
  getProp (DraftData_object snapshot) (str "tags")
    = Normal (Some (JArray (JString <$> tags d))) ∧
  getProp (DraftData_object snapshot) (str "savedAt") = Normal (Some (JString now)).
Proof.
  intros Hdirty w' snapshot.
  split_and!; [|apply isDraftData_DraftData_object|done|done].
  apply loadDraft_stored_snapshot. unfold w'. rewrite saveDraft_Some.
  rewrite bool_decide_eq_false_2 by done. cbn [snd localStorage].
  apply lookup_insert_eq.
Qed.

(** The round trip on a post whose tags are not in sorted order. *)
Lemma saveDraft_then_loadDraft_witness :
  lastSavedHashRef (hook freshWorld) ≠ Some (dataToHash samplePostTagsSwapped) ∧
  (loadDraft (str "new-post")
     (saveDraft (str "new-post") (str "10:00:05") (Some samplePostTagsSwapped)
        freshWorld).2).1
  = Normal (DraftData_object (mkDraftData samplePostTagsSwapped (str "10:00:05"))).
Proof.
  assert (lastSavedHashRef (hook freshWorld)
          ≠ Some (dataToHash samplePostTagsSwapped)) as Hdirty by done.
  split; [exact Hdirty|].
  exact (f_equal fst (proj1 (saveDraft_then_loadDraft (str "new-post")
           (str "10:00:05") samplePostTagsSwapped freshWorld Hdirty))).
Defined.

Lemma JSON_stringify_inj v1 v2 :
  numberFree v1 = true → numberFree v2 = true →
  JSON_stringify v1 = JSON_stringify v2 → v1 = v2.
Proof.
  intros H1 H2 Heq. apply JSON_parse_stringify in H1, H2.
  rewrite Heq in H1. congruence.
Qed.

(** The fingerprint tells two states apart exactly when they differ in more
    than the order of their tags. *)
Lemma dataToHash_eq_fields d1 d2 :
  dataToHash d1 = dataToHash d2 ↔
  title d1 = title d2 ∧ slug d1 = slug d2 ∧ description d1 = description d2 ∧
  date d1 = date d2 ∧ draft d1 = draft d2 ∧ content d1 = content d2 ∧
  tags d1 ≡ₚ tags d2.
Proof.
  split.
  - unfold dataToHash. intros Heq.
    apply JSON_stringify_inj in Heq;
      [|cbn; by rewrite numberFree_strings..].
    injection Heq as Ht Hs Hd Hda Hdr Htags Hc.
    split_and!; try done.
    assert (Inj (=) (=) JString) as Hinj by (by intros ?? [=]).
    apply (inj (fmap JString)) in Htags.
    by rewrite <-(Array_sort_permutation (tags d1)), Htags, Array_sort_permutation.
  - intros (?&?&?&?&?&?&?). apply dataToHash_ext; try done.
    by apply Array_sort_order_insensitive.
Qed.

(** Two states have the same fingerprint if and only if they agree on
    title, slug, description, date, draft flag and content and their tags
    are permutations of each other: the fingerprint neither confuses two
    states that differ in a field nor separates two that differ in tag
    order only. *)
Theorem dataToHash_equal_iff d1 d2 :
  dataToHash d1 = dataToHash d2 ↔
  title d1 = title d2 ∧ slug d1 = slug d2 ∧ description d1 = description d2 ∧
  date d1 = date d2 ∧ draft d1 = draft d2 ∧ content d1 = content d2 ∧
  tags d1 ≡ₚ tags d2.
Proof. apply dataToHash_eq_fields. Qed.

(** Against a baseline taken from state [d], [checkForChanges] on state [d']
    returns false if and only if [d'] agrees with [d] on every field up to
    the order of the tags; so every edit of a field is reported, and
    [hasUnsavedChanges] is set accordingly. *)
Theorem checkForChanges_detects_every_edit d d' w :
  lastSavedHashRef (hook w) = Some (dataToHash d) →
  ((checkForChanges (Some d') w).1 = Normal false ↔
   title d' = title d ∧ slug d' = slug d ∧ description d' = description d ∧
   date d' = date d ∧ draft d' = draft d ∧ content d' = content d ∧
   tags d' ≡ₚ tags d) ∧
  hasUnsavedChanges (hook (checkForChanges (Some d') w).2)
    = negb (bool_decide (dataToHash d' = dataToHash d)).
Proof.
  intros Hbase. rewrite checkForChanges_Some. cbn zeta. rewrite Hbase.
  cbn [fst snd hook hasUnsavedChanges].
  rewrite <-dataToHash_eq_fields. split.
  - case_bool_decide as Heq; cbn [negb]; split; try done; congruence.
  - f_equal. apply bool_decide_ext. split; congruence.
Qed.

(** After the baseline is taken from a post, one more character in its
    content is reported. *)
Lemma checkForChanges_detects_every_edit_witness :
  let w := (checkForChanges (Some samplePost) freshWorld).2 in
  lastSavedHashRef (hook w) = Some (dataToHash samplePost) ∧
  (checkForChanges (Some samplePostEdited) w).1 ≠ Normal false.
Proof.
  intros w.
  assert (lastSavedHashRef (hook w) = Some (dataToHash samplePost)) as Hbase
    by reflexivity.
  split; [exact Hbase|].
  intros Hfalse.
  destruct (proj1 (proj1 (checkForChanges_detects_every_edit samplePost
                            samplePostEdited w Hbase)) Hfalse)
    as (_ & _ & _ & _ & _ & Hcontent & _).
  discriminate Hcontent.
Defined.

(** Whatever the storage holds, the hydration effect and [loadDraft]
    complete without throwing; the effect sets [isHydrated] and writes
    nothing, and [loadDraft] changes nothing. On a hook whose [hasDraft] is
    still false, the effect sets [hasDraft] if and only if the string stored
    under the key is JSON, and then [loadDraft] returns the value that
    string denotes. *)
Theorem hydrationEffect_hasDraft_iff_JSON key w :
  (hydrationEffect key w).1 = Normal () ∧
  (∃ v, (loadDraft key w).1 = Normal v) ∧ (loadDraft key w).2 = w ∧
  isHydrated (hook (hydrationEffect key w).2) = true ∧
  localStorage (hydrationEffect key w).2 = localStorage w ∧
  setItemCalls (hydrationEffect key w).2 = setItemCalls w ∧
  (hasDraft (hook w) = false →
   (hasDraft (hook (hydrationEffect key w).2) = true ↔
    ∃ saved v, localStorage w !! storageKey key = Some saved ∧
               JSON_parse saved = Normal v ∧
               (loadDraft key w).1 = Normal v)).
Proof.
  rewrite loadDraft_eq. cbn [fst snd].
  destruct w as [[st ls hu hd hy ref] storage calls].
  cbn [hook hasDraft localStorage].
  assert (JSON_parse [] = Throw SyntaxError) as Hempty by done.
  run_hook.
  destruct (storage !! storageKey key) as [saved|] eqn:Hstored.
  - destruct saved as [|c saved'] eqn:Hsaved.
    + cbn [truthy]. split_and!; eauto.
      intros ->. split; [done|]. intros (? & v & [= <-] & Hv & _). congruence.
    + cbn [truthy]. rewrite <-Hsaved.
      destruct (JSON_parse saved) as [v|e] eqn:Hparse.
      * destruct (getProp v (str "savedAt")); cbn [fst snd hook hasDraft isHydrated localStorage setItemCalls];
          split_and!; eauto; intros _; split; eauto.
      * cbn [fst snd hook hasDraft isHydrated localStorage setItemCalls].
        split_and!; eauto.
        intros ->. split; [done|]. intros (? & v & [= <-] & Hv & _). congruence.
  - split_and!; eauto. intros ->. split; [done|]. by intros (? & ? & ? & _).
Qed.

(** A stored JSON array counts as a draft. *)
Lemma hydrationEffect_hasDraft_iff_JSON_witness :
  hasDraft (hook (worldWithStored (str "[1, 2]"))) = false ∧
  hasDraft (hook (hydrationEffect (draftKey NewPostPage)
                    (worldWithStored (str "[1, 2]"))).2) = true.
Proof.
  split; [reflexivity|].
  destruct (hydrationEffect_hasDraft_iff_JSON (draftKey NewPostPage)
              (worldWithStored (str "[1, 2]"))) as (_ & _ & _ & _ & _ & _ & Hiff).
  apply (Hiff eq_refl).
  exists (str "[1, 2]"), (JArray [JNumber (str "1"); JNumber (str "2")]).
  vm_compute. split_and!; reflexivity.
Defined.

Lemma clearDraft_eq key w :
  clearDraft key w =
  (Normal (),
   mkWorld (mkHook (status (hook w)) None (hasUnsavedChanges (hook w)) false
                   (isHydrated (hook w)) (lastSavedHashRef (hook w)))
           (delete (storageKey key) (localStorage w)) (setItemCalls w)).
Proof. destruct w as [[] ? ?]. by run_hook. Qed.

(** [clearDraft] never throws and removes the draft of its own key: the key
    is absent afterwards, [loadDraft] returns [null], [hasDraft] is false and
    [lastSaved] is [null]; every other key keeps its value and no write is
    made. Clearing again changes nothing, and clearing when no draft is
    stored leaves the storage as it is. *)
Theorem clearDraft_removes_only_its_draft key w :
  let w' := (clearDraft key w).2 in
  (clearDraft key w).1 = Normal () ∧
  localStorage w' !! storageKey key = None ∧
  (∀ k, k ≠ storageKey key → localStorage w' !! k = localStorage w !! k) ∧
  loadDraft key w' = (Normal JNull, w') ∧
  hasDraft (hook w') = false ∧ lastSaved (hook w') = None ∧
  setItemCalls w' = setItemCalls w ∧
  (clearDraft key w').2 = w' ∧
  (localStorage w !! storageKey key = None → localStorage w' = localStorage w).
Proof.
  intros w'. unfold w'. rewrite !clearDraft_eq, loadDraft_eq.
  cbn [fst snd hook localStorage setItemCalls hasDraft lastSaved status
       hasUnsavedChanges isHydrated lastSavedHashRef].
  rewrite lookup_delete_eq. split_and!; try done.
  - intros k Hk. by apply lookup_delete_ne.
  - by rewrite delete_delete_eq.
  - intros Hnone. by apply delete_id.
Qed.

(** Clearing the draft of one post keeps the draft of another. *)
Lemma clearDraft_removes_only_its_draft_witness :
  let w := (saveDraft (str "edit-a") (str "10:00:05") (Some samplePost)
              (saveDraft (str "edit-b") (str "10:00:00") (Some samplePostEdited)
                 freshWorld).2).2 in
  storageKey (str "edit-b") ≠ storageKey (str "edit-a") ∧
  localStorage (clearDraft (str "edit-a") w).2 !! storageKey (str "edit-b")
  = localStorage w !! storageKey (str "edit-b") ∧
  is_Some (localStorage w !! storageKey (str "edit-b")).
Proof.
  intros w.
  assert (storageKey (str "edit-b") ≠ storageKey (str "edit-a")) as Hne
    by discriminate.
  split; [exact Hne|].
  destruct (clearDraft_removes_only_its_draft (str "edit-a") w)
    as (_ & _ & Hother & _).
  split; [exact (Hother _ Hne)|].
  vm_compute. eexists. reflexivity.
Defined.



End hook_more.

(** ** The pages, continued *)

Section pages_more.
Implicit Types (p : Page) (e : Event) (w : World).

Lemma route_commit p : route (commit p) = route p.
Proof.
  unfold commit, dialogEffect. case_bool_decide; [done|].
  by destruct (match route p with NewPostPage => _ | EditPostPage _ => _ end).
Qed.

Lemma post_commit p : post (commit p) = post p.
Proof.
  unfold commit, dialogEffect. case_bool_decide; [done|].
  by destruct (match route p with NewPostPage => _ | EditPostPage _ => _ end).
Qed.

Lemma showDraftDialog_commit p :
  showDraftDialog (commit p) =
  if bool_decide (dialogEffectDeps p = Some (currentDeps p)) then showDraftDialog p
  else dialogCondition p || showDraftDialog p.
Proof.
  unfold commit, dialogEffect, dialogCondition. case_bool_decide; [done|].
  by destruct (match route p with NewPostPage => _ | EditPostPage _ => _ end).
Qed.

Lemma world_step p e :
  world (step p e) = (eventOnWorld (draftKey (route p)) e (world p)).2.
Proof.
  destruct e; cbn [step eventOnWorld]; unfold withWorld, handleRestoreDraft,
    handleDiscardDraft, withWorld; rewrite ?world_commit; cbn [world];
    by rewrite ?world_commit.
Qed.

Lemma route_step p e : route (step p e) = route p.
Proof.
  destruct e; cbn [step]; unfold withWorld, handleRestoreDraft,
    handleDiscardDraft, withWorld; rewrite ?route_commit; cbn [route];
    by rewrite ?route_commit.
Qed.

Lemma route_foldl_step events : ∀ p, route (foldl step p events) = route p.
Proof.
  induction events as [|e events IH]; intros p; [done|].
  cbn [foldl]. by rewrite IH, route_step.
Qed.

Ltac run_hook :=
  cbv [saveDraft checkForChanges loadDraft clearDraft hydrationEffect
       changeCheckTick autoSaveTick mbind M_bind mret M_ret throw try_catch eval
       modifyHook setStatus setLastSaved setHasUnsavedChanges setHasDraft
       setIsHydrated setLastSavedHashRef getLastSavedHashRef getItem setItem
       removeItem];
  cbn [hook localStorage setItemCalls status lastSaved hasUnsavedChanges
       hasDraft isHydrated lastSavedHashRef fst snd].

(** The hydration effect leaves the status, the flags of the change
    detector, the storage and the record of writes alone. *)
Lemma hydrationEffect_frame key w :
  let w' := (hydrationEffect key w).2 in
  status (hook w') = status (hook w) ∧
  hasUnsavedChanges (hook w') = hasUnsavedChanges (hook w) ∧
  localStorage w' = localStorage w ∧ setItemCalls w' = setItemCalls w.
Proof.
  destruct w as [[] ? ?]. run_hook.
  destruct (_ !! _) as [saved|]; [|done].
  destruct (truthy saved); [|done].
  destruct (JSON_parse saved) as [v|]; [|done].
  by destruct (getProp v _).
Qed.

(** The only storage key an event of a page can change is the page's own. *)
Lemma eventOnWorld_other_keys key e w k :
  k ≠ storageKey key →
  localStorage (eventOnWorld key e w).2 !! k = localStorage w !! k.
Proof.
  intros Hk. destruct e as [getData|now getData| | |id]; cbn [eventOnWorld].
  - unfold changeCheckTick, mbind, M_bind. destruct getData as [d|]; [|done].
    rewrite checkForChanges_Some. cbn zeta.
    by destruct (lastSavedHashRef (hook w)).
  - unfold autoSaveTick, mbind, M_bind. destruct getData as [d|]; [|done].
    rewrite checkForChanges_Some. cbn zeta.
    destruct (lastSavedHashRef (hook w)) as [last|]; [|done].
    destruct (negb _); [|done].
    rewrite saveDraft_Some. case_bool_decide; [done|].
    cbn [snd localStorage]. by rewrite lookup_insert_ne.
  - unfold mbind, M_bind. by rewrite loadDraft_eq.
  - rewrite clearDraft_eq. cbn [snd localStorage]. by rewrite lookup_delete_ne.
  - done.
Qed.

(** Whatever happens on a page (ticks, restore, discard, the post
    loading), the storage changes at most under the page's own storage key:
    every other key keeps its value, and the page keeps its route. *)
Theorem page_events_touch_only_own_key events : ∀ p k,
  k ≠ storageKey (draftKey (route p)) →
  localStorage (world (foldl step p events)) !! k = localStorage (world p) !! k ∧
  route (foldl step p events) = route p.
Proof.
  induction events as [|e events IH]; intros p k Hk; [done|].
  cbn [foldl]. destruct (IH (step p e) k) as [Hstore Hroute].
  { by rewrite route_step. }
  rewrite Hstore, Hroute, route_step, world_step.
  split; [|done]. by apply eventOnWorld_other_keys.
Qed.

(** The mount of a page reads the storage and does not change it. *)
Lemma localStorage_mount (r : Route) (storage : gmap (list N) (list N)) :
  localStorage (world (mount r storage)) = storage.
Proof.
  unfold mount, withWorld. rewrite world_commit. cbn [world].
  destruct (hydrationEffect_frame (draftKey r)
              (world (commit (mkPage r (mkWorld initialHook storage []) false None None))))
    as (_ & _ & -> & _).
  by rewrite world_commit.
Qed.

(** A draft of another post survives saving and discarding on the new-post
    page. *)
Lemma page_events_touch_only_own_key_witness :
  let other := storageKey (draftKey (EditPostPage (str "other"))) in
  let storage : gmap (list N) (list N) := {[ other := str "kept" ]} in
  other ≠ storageKey (draftKey NewPostPage) ∧
  localStorage (world (foldl step (mount NewPostPage storage)
     [ChangeCheckTick (Some samplePost);
      AutoSaveTick (str "10:00:05") (Some samplePostEdited); DiscardDraft]))
    !! other = Some (str "kept").
Proof.
  intros other storage.
  assert (other ≠ storageKey (draftKey NewPostPage)) as Hne by discriminate.
  split; [exact Hne|].
  rewrite (proj1 (page_events_touch_only_own_key _ (mount NewPostPage storage)
                    other Hne)).
  rewrite localStorage_mount. reflexivity.
Defined.

(** On the edit page the recovery dialog stays closed as long as the post
    has not loaded, whatever is stored and whatever ticks, restore or
    discard events occur. *)
Theorem edit_page_waits_for_post (slug : list N) (storage : gmap (list N) (list N)) events :
  Forall (λ e, ∀ id, e ≠ PostLoaded id) events →
  showDraftDialog (foldl step (mount (EditPostPage slug) storage) events) = false.
Proof.
  intros Hevents.
  set (waiting p := route p = EditPostPage slug ∧ post p = None ∧
                    showDraftDialog p = false).
  assert (∀ p, route p = EditPostPage slug → post p = None →
               dialogCondition p = false) as Hcond.
  { intros p Hr Hp. unfold dialogCondition. rewrite Hr, Hp.
    by rewrite andb_false_r. }
  assert (∀ p, waiting p → waiting (commit p)) as Hcommit.
  { intros p (Hr & Hp & Hs). unfold waiting.
    rewrite route_commit, post_commit, showDraftDialog_commit.
    split_and!; try done. rewrite Hs, Hcond by done. by case_bool_decide. }
  assert (waiting (mount (EditPostPage slug) storage)) as Hstart.
  { unfold mount, withWorld. apply Hcommit. unfold waiting. cbn [route post showDraftDialog].
    by destruct (Hcommit (mkPage (EditPostPage slug) (mkWorld initialHook storage []) false None None))
      as (-> & -> & ->). }
  generalize dependent (mount (EditPostPage slug) storage).
  induction Hevents as [|e events He _ IH]; intros p Hp; [by destruct Hp as (_&_&?)|].
  cbn [foldl]. apply IH. destruct Hp as (Hr & Hpost & Hs).
  destruct e as [getData|now getData| | |id]; cbn [step];
    unfold withWorld, handleRestoreDraft, handleDiscardDraft, withWorld.
  - by apply Hcommit.
  - by apply Hcommit.
  - apply Hcommit. unfold waiting. cbn [route post showDraftDialog].
    by rewrite route_commit, post_commit.
  - by apply Hcommit.
  - by destruct (He id).
Qed.

(** With a draft stored, ticks before the post has loaded do not open the
    dialog. *)
Lemma edit_page_waits_for_post_witness :
  let stored := JSON_stringify (DraftData_object (mkDraftData samplePost (str "09:00:00"))) in
  let events := [ChangeCheckTick None; AutoSaveTick (str "10:00:05") None] in
  Forall (λ e, ∀ id, e ≠ PostLoaded id) events ∧
  showDraftDialog (foldl step
    (mount (EditPostPage (str "hello"))
       {[ storageKey (draftKey (EditPostPage (str "hello"))) := stored ]})
    events) = false.
Proof.
  intros stored events.
  assert (Forall (λ e, ∀ id, e ≠ PostLoaded id) events) as Hevents
    by (repeat constructor; discriminate).
  split; [exact Hevents|].
  exact (edit_page_waits_for_post _ _ events Hevents).
Defined.

Lemma hydrationEffect_flags key w :
  isHydrated (hook (hydrationEffect key w).2) = true ∧
  hasDraft (hook (hydrationEffect key w).2)
    = hasDraft (hook w) || storedJSON key (localStorage w).
Proof.
  assert (JSON_parse [] = Throw SyntaxError) as Hempty by done.
  unfold storedJSON. destruct w as [[st ls hu hd hy ref] storage calls]. run_hook.
  destruct (storage !! storageKey key) as [saved|]; [|by rewrite orb_false_r].
  destruct saved as [|c saved'] eqn:Hsaved.
  { rewrite Hempty. cbn [truthy]. by rewrite orb_false_r. }
  cbn [truthy]. rewrite <-Hsaved.
  destruct (JSON_parse saved) as [v|]; [|by rewrite orb_false_r].
  rewrite orb_true_r. by destruct (getProp v _).
Qed.

Lemma world_mount (r : Route) (storage : gmap (list N) (list N)) :
  world (mount r storage)
  = (hydrationEffect (draftKey r) (mkWorld initialHook storage [])).2.
Proof.
  unfold mount, withWorld. rewrite world_commit. cbn [world].
  by rewrite world_commit.
Qed.

Lemma hasDraft_mount (r : Route) (storage : gmap (list N) (list N)) :
  hasDraft (hook (world (mount r storage))) = storedJSON (draftKey r) storage.
Proof.
  rewrite world_mount.
  by destruct (hydrationEffect_flags (draftKey r) (mkWorld initialHook storage []))
    as [_ ->].
Qed.

Lemma mount_fields (r : Route) (storage : gmap (list N) (list N)) :
  route (mount r storage) = r ∧ post (mount r storage) = None ∧
  dialogEffectDeps (mount r storage) = Some (currentDeps (mount r storage)) ∧
  showDraftDialog (mount r storage)
  = match r with
    | NewPostPage => storedJSON (draftKey r) storage
    | EditPostPage _ => false
    end.
Proof.
  rewrite <-hasDraft_mount. unfold mount, withWorld.
  assert (commit (mkPage r (mkWorld initialHook storage []) false None None)
          = mkPage r (mkWorld initialHook storage []) false None
                   (Some (false, false, None))) as -> by (by destruct r).
  cbn [route world showDraftDialog post dialogEffectDeps].
  destruct (hydrationEffect_flags (draftKey r) (mkWorld initialHook storage []))
    as [Hhyd _].
  destruct (hydrationEffect (draftKey r) (mkWorld initialHook storage [])).2
    as [[st ls hu hd hy ref] sto calls].
  cbn in Hhyd. subst hy. by destruct r, hd.
Qed.

(** Discarding removes the draft for good: after [handleDiscardDraft] the
    page's key is absent from the storage and the dialog is closed, and a
    page of the same route mounted over that storage finds no draft and
    does not open the dialog, neither at mount nor when its post loads. *)
Theorem discard_is_durable p id :
  let p' := handleDiscardDraft p in
  let q := mount (route p) (localStorage (world p')) in
  localStorage (world p') !! storageKey (draftKey (route p)) = None ∧
  showDraftDialog p' = false ∧
  hasDraft (hook (world q)) = false ∧
  showDraftDialog q = false ∧ showDraftDialog (step q (PostLoaded id)) = false.
Proof.
  intros p' q.
  assert (localStorage (world p') !! storageKey (draftKey (route p)) = None)
    as Hgone.
  { unfold p', handleDiscardDraft. rewrite world_commit. cbn [world].
    rewrite clearDraft_eq. apply lookup_delete_eq. }
  assert (showDraftDialog p' = false) as Hclosed.
  { unfold p', handleDiscardDraft. rewrite showDraftDialog_commit.
    unfold dialogCondition. cbn [route world showDraftDialog post].
    rewrite clearDraft_eq. cbn [snd hook hasDraft].
    case_bool_decide; [done|]. destruct (route p); by rewrite andb_false_r. }
  assert (storedJSON (draftKey (route p)) (localStorage (world p')) = false)
    as Hstored by (unfold storedJSON; by rewrite Hgone).
  destruct (mount_fields (route p) (localStorage (world p')))
    as (Hroute & Hpost & Hsync & Hshow).
  fold q in Hroute, Hpost, Hsync, Hshow.
  assert (hasDraft (hook (world q)) = false) as Hdraft
    by (unfold q; by rewrite hasDraft_mount).
  assert (showDraftDialog q = false) as Hq
    by (rewrite Hshow, Hstored; by destruct (route p)).
  split_and!; try done.
  cbn [step]. rewrite showDraftDialog_commit. unfold dialogCondition.
  cbn [route world showDraftDialog post]. rewrite Hdraft, Hq.
  case_bool_decide; [done|]. rewrite Hroute. destruct (route p);
    by rewrite ?andb_false_r.
Qed.

(** A draft written in one session is offered in the next: over the storage
    a writing [saveDraft] leaves behind, a newly mounted page of the same
    route has [hasDraft] set and [loadDraft] returns the snapshot that was
    written; the new-post page opens the dialog at mount, the edit page as
    soon as its post has loaded. *)
Theorem saved_draft_is_offered_on_next_mount (r : Route) now d w id :
  lastSavedHashRef (hook w) ≠ Some (dataToHash d) →
  let storage := localStorage (saveDraft (draftKey r) now (Some d) w).2 in
  let q := mount r storage in
  hasDraft (hook (world q)) = true ∧
  (loadDraft (draftKey r) (world q)).1
    = Normal (DraftData_object (mkDraftData d now)) ∧
  match r with
  | NewPostPage => showDraftDialog q = true
  | EditPostPage _ =>
    showDraftDialog q = false ∧ showDraftDialog (step q (PostLoaded id)) = true
  end.
Proof.
  intros Hdirty storage q.
  assert (storage !! storageKey (draftKey r)
          = Some (JSON_stringify (DraftData_object (mkDraftData d now)))) as Hstored.
  { unfold storage. rewrite saveDraft_Some.
    rewrite bool_decide_eq_false_2 by done. cbn [snd localStorage].
    apply lookup_insert_eq. }
  assert (storedJSON (draftKey r) storage = true) as Hjson.
  { unfold storedJSON. rewrite Hstored.
    by rewrite JSON_parse_stringify by apply numberFree_DraftData_object. }
  destruct (mount_fields r storage) as (Hroute & Hpost & Hsync & Hshow).
  fold q in Hroute, Hpost, Hsync, Hshow.
  assert (hasDraft (hook (world q)) = true) as Hdraft
    by (unfold q; by rewrite hasDraft_mount).
  split; [done|]. split.
  { rewrite (loadDraft_stored_snapshot _ _ (mkDraftData d now)); [done|].
    unfold q. by rewrite localStorage_mount. }
  destruct r as [|slug]; [by rewrite Hshow|]. split; [done|].
  cbn [step]. rewrite showDraftDialog_commit.
  cbn [dialogEffectDeps]. rewrite Hsync.
  rewrite bool_decide_eq_false_2
    by (unfold currentDeps; cbn [world post]; rewrite Hpost; intros [=]).
  unfold dialogCondition. cbn [route world post]. rewrite Hroute, Hdraft.
  destruct (hydrationEffect_flags (draftKey (EditPostPage slug))
              (mkWorld initialHook storage [])) as [Hhyd _].
  unfold q. rewrite world_mount, Hhyd.
  by rewrite bool_decide_eq_true_2 by eauto.
Qed.

(** A post saved on the edit page of "hello" is offered there again. *)
Lemma saved_draft_is_offered_on_next_mount_witness :
  let r := EditPostPage (str "hello") in
  let storage := localStorage (saveDraft (draftKey r) (str "10:00:05")
                                 (Some samplePost) freshWorld).2 in
  lastSavedHashRef (hook freshWorld) ≠ Some (dataToHash samplePost) ∧
  showDraftDialog (mount r storage) = false ∧
  showDraftDialog (step (mount r storage) (PostLoaded 1)) = true.
Proof.
  intros r storage.
  assert (lastSavedHashRef (hook freshWorld) ≠ Some (dataToHash samplePost))
    as Hdirty by done.
  split; [exact Hdirty|].
  exact (proj2 (proj2 (saved_draft_is_offered_on_next_mount r (str "10:00:05")
                         samplePost freshWorld 1 Hdirty))).
Defined.

End pages_more.

(** ** The text mutators, continued *)

Section text_mutators_more.
Implicit Types value prefix suffix text snippet markdown : list N.

(** A text stands at the start of a line when nothing or a line feed
    precedes it. *)
Lemma line_start_cases text :
  (if (0 <? length text) && negb (endsWith text [10%N]) then False else True) →
  text = [] ∨ ∃ p, text = p ++ [10%N].
Proof.
  destruct text as [|c text']; [by left|]. cbn [length Nat.ltb Nat.leb andb].
  destruct (endsWith (c :: text') [10%N]) eqn:Hends; [|done].
  intros _. right. by apply endsWith_spec.
Qed.

(** [insertOnNewLine] puts its snippet at the start of a line. The new text
    is some [pre], the snippet, and the text from the cursor on; [pre] is
    empty or ends in a line feed and begins with the text before the cursor;
    and the new cursor stands right behind the snippet: the text in front of
    it is [pre] followed by the snippet. *)
Theorem insertOnNewLine_starts_a_line value cursor end_ snippet :
  ∃ e pre,
    insertOnNewLine value (Some (mkTextarea cursor end_)) snippet = Some e ∧
    newText e = pre ++ snippet ++ drop cursor value ∧
    (pre = [] ∨ ∃ p, pre = p ++ [10%N]) ∧
    take (length (take cursor value)) pre = take cursor value ∧
    (cursor ≤ length value → take (newSelectionStart e) (newText e) = pre ++ snippet).
Proof.
  rewrite insertOnNewLine_unfold. cbn zeta.
  set (before := take cursor value).
  destruct ((0 <? length before) && negb (endsWith before [10%N])) eqn:Hnl.
  - exists (mkEdit (before ++ [10%N] ++ snippet ++ drop cursor value)
                   (cursor + 1 + length snippet) (cursor + 1 + length snippet)),
           (before ++ [10%N]).
    cbn [newText newSelectionStart]. split_and!; [done|by rewrite <-app_assoc|eauto| |].
    + by rewrite take_app_length.
    + intros Hc. assert (length before = cursor) as Hlen
        by (unfold before; rewrite length_take; lia).
      rewrite (app_assoc before), (app_assoc (before ++ _)).
      apply take_app_length'. rewrite !length_app, Hlen. cbn. lia.
  - exists (mkEdit (before ++ snippet ++ drop cursor value)
                   (cursor + 0 + length snippet) (cursor + 0 + length snippet)),
           before.
    cbn [newText newSelectionStart app]. split_and!; [done|done| |by rewrite take_ge|].
    + apply line_start_cases. by rewrite Hnl.
    + intros Hc. assert (length before = cursor) as Hlen
        by (unfold before; rewrite length_take; lia).
      rewrite app_assoc. apply take_app_length'. rewrite length_app, Hlen. lia.
Qed.

(** At the end of "abc" the cursor lands behind the heading marker. *)
Lemma insertOnNewLine_starts_a_line_witness :
  3 ≤ length (str "abc") ∧
  ∃ e, insertOnNewLine (str "abc") (Some (mkTextarea 3 3)) (str "# ") = Some e ∧
       take (newSelectionStart e) (newText e) = str "abc\n# ".
Proof.
  assert (3 ≤ length (str "abc")) as Hc by (vm_compute; lia).
  split; [exact Hc|].
  destruct (insertOnNewLine_starts_a_line (str "abc") 3 3 (str "# "))
    as (e & pre & He & Htext & _ & _ & Hcursor).
  exists e. split; [exact He|].
  rewrite (Hcursor Hc).
  assert (Some e = Some (mkEdit (str "abc\n# ") 6 6)) as [= ->]
    by (rewrite <-He; reflexivity).
  cbn [newText] in Htext.
  apply (app_inv_tail (drop 3 (str "abc"))).
  rewrite <-app_assoc, <-Htext. reflexivity.
Defined.

(** Where [insertAtCursor] leaves the cursor, for a selection within the
    text. After wrapping a non-empty selection the text in front of the
    cursor ends with prefix, selection and suffix, and the text behind it is
    the text that followed the selection. On an empty selection the cursor
    stands between the prefix and the placeholder. In both cases the offset
    lies within the new text, whose length is that of the old text plus
    what was inserted. *)
Theorem insertAtCursor_cursor_placement value start end_ prefix suffix defaultText :
  start ≤ end_ → end_ ≤ length value →
  ∃ e, insertAtCursor value (Some (mkTextarea start end_)) prefix suffix defaultText
       = Some e ∧
    newSelectionStart e ≤ length (newText e) ∧
    (start < end_ →
       take (newSelectionStart e) (newText e)
         = take start value ++ prefix ++ slice value start end_ ++ suffix ∧
       drop (newSelectionStart e) (newText e) = drop end_ value ∧
       length (newText e) = length value + length prefix + length suffix) ∧
    (start = end_ →
       take (newSelectionStart e) (newText e) = take start value ++ prefix ∧
       drop (newSelectionStart e) (newText e)
         = defaultText ++ suffix ++ drop start value ∧
       length (newText e)
         = length value + length prefix + length defaultText + length suffix).
Proof.
  intros Hse Hel. rewrite insertAtCursor_unfold. cbn zeta.
  rewrite substring_ordered by done. fold (slice value start end_).
  assert (length (slice value start end_) = end_ - start) as Hsel
    by (by apply slice_length).
  assert (length (take start value) = start) as Hbefore
    by (rewrite length_take; lia).
  assert (length (drop end_ value) = length value - end_) as Hafter
    by apply length_drop.
  eexists. split; [done|]. cbn [newText newSelectionStart].
  destruct (decide (start < end_)) as [Hlt|Hge].
  - rewrite truthy_length by lia. unfold or_else. rewrite truthy_length by lia.
    assert (take start value ++ prefix ++ slice value start end_ ++ suffix
              ++ drop end_ value
            = (take start value ++ prefix ++ slice value start end_ ++ suffix)
              ++ drop end_ value) as -> by (by rewrite <-!app_assoc).
    assert (length (take start value ++ prefix ++ slice value start end_ ++ suffix)
            = start + length prefix + length (slice value start end_)
              + length suffix) as Hlen
      by (rewrite !length_app; lia).
    split_and!.
    + rewrite length_app. lia.
    + intros _. split_and!.
      * by rewrite take_app_length'.
      * by rewrite drop_app_length'.
      * rewrite length_app. lia.
    + lia.
  - assert (start = end_) as <- by lia.
    assert (slice value start start = []) as Hempty
      by (unfold slice; by rewrite Nat.sub_diag).
    rewrite Hempty. cbn [truthy]. unfold or_else. cbn [truthy].
    assert (take start value ++ prefix ++ defaultText ++ suffix ++ drop start value
            = (take start value ++ prefix)
              ++ defaultText ++ suffix ++ drop start value) as ->
      by (by rewrite <-!app_assoc).
    assert (length (take start value ++ prefix) = start + length prefix) as Hlen
      by (rewrite length_app; lia).
    split_and!.
    + rewrite length_app. lia.
    + lia.
    + intros _. split_and!.
      * by rewrite take_app_length'.
      * by rewrite drop_app_length'.
      * rewrite !length_app. lia.
Qed.

(** Bold on "world" in "Hello world": the cursor ends behind the closing
    stars. *)
Lemma insertAtCursor_cursor_placement_witness :
  6 ≤ 11 ∧ 11 ≤ length (str "Hello world") ∧
  ∃ e, actions bold (str "Hello world") (Some (mkTextarea 6 11)) = Some e ∧
       take (newSelectionStart e) (newText e) = str "Hello **world**".
Proof.
  assert (6 ≤ 11) as H1 by lia.
  assert (11 ≤ length (str "Hello world")) as H2 by (vm_compute; lia).
  split; [exact H1|]. split; [exact H2|].
  destruct (insertAtCursor_cursor_placement (str "Hello world") 6 11
              (str "**") (str "**") (str "bold text") H1 H2)
    as (e & He & _ & Hsel & _).
  exists e. split; [exact He|].
  exact (proj1 (Hsel ltac:(lia))).
Defined.

Lemma replaceRuns_avoids_class (class : N → bool) s : ∀ inRun,
  class 45%N = false →
  Forall (λ c, class c = false) (replaceRuns class inRun s).
Proof.
  induction s as [|c r IH]; intros inRun Hhyphen; [constructor|].
  cbn [replaceRuns]. destruct (class c) eqn:Hc.
  - destruct inRun; [by apply IH|]. constructor; [done|by apply IH].
  - constructor; [done|by apply IH].
Qed.

Lemma replaceRuns_without_class (class : N → bool) s : ∀ inRun,
  Forall (λ c, class c = false) s → replaceRuns class inRun s = s.
Proof.
  induction s as [|c r IH]; intros inRun Hs; [done|].
  apply Forall_cons in Hs as [Hc Hr]. cbn [replaceRuns]. rewrite Hc.
  f_equal. by apply IH.
Qed.

(** [handleUploadFile] refuses a file exactly when its type does not start
    with "image/" or it is larger than 5 MiB. For an accepted file the
    markdown handed on is [![filename](blobUrl)] with the blob URL of the
    pending image; the file name in it contains no white space, and is the
    file's own name when that has none. *)
Theorem handleUploadFile_accepts_images (f : File) createObjectURL newId :
  (handleUploadFile f createObjectURL newId = None ↔
   startsWith (type f) (str "image/") = false ∨ (5242880 < size f)%N) ∧
  ∀ markdown img,
    handleUploadFile f createObjectURL newId = Some (markdown, img) →
    markdown = str "![" ++ filename img ++ str "](" ++ blobUrl img ++ str ")" ∧
    blobUrl img = createObjectURL ∧ file img = f ∧ id img = newId ∧
    Forall (λ c, isWhiteSpace c = false) (filename img) ∧
    (Forall (λ c, isWhiteSpace c = false) (name f) → filename img = name f).
Proof.
  unfold handleUploadFile.
  change (5 * 1024 * 1024)%N with 5242880%N.
  destruct (startsWith (type f) (str "image/")); cbn [negb].
  - destruct (N.ltb_spec 5242880 (size f)).
    + split; [split; [auto|done]|done].
    + split; [split; [done|intros [?|?]; [done|lia]]|].
      intros markdown img [= <- <-]. cbn [filename blobUrl file id].
      split_and!; try done.
      * by apply replaceRuns_avoids_class.
      * apply replaceRuns_without_class.
  - split; [split; [auto|done]|done].
Qed.

(** A screenshot with blanks in its name. *)
Lemma handleUploadFile_accepts_images_witness :
  ∃ markdown img,
    handleUploadFile (mkFile (str "my  first shot.png") (str "image/png") 1024)
      (str "blob:abc") (str "pending-1") = Some (markdown, img) ∧
    markdown = str "![my-first-shot.png](blob:abc)".
Proof.
  destruct (handleUploadFile_accepts_images
              (mkFile (str "my  first shot.png") (str "image/png") 1024)
              (str "blob:abc") (str "pending-1")) as [_ Hshape].
  eexists _, _. split; [reflexivity|].
  exact (proj1 (Hshape _ _ eq_refl)).
Defined.

(** [handleImageUpload] puts the image on a line of its own and loses
    nothing. The new text is some [pre], the markdown, a line feed, and
    [post]; [pre] is empty or ends in a line feed and begins with the text
    before the cursor, [post] is the text from the cursor on. Without an
    attached textarea the image goes to the end: [pre] begins with the whole
    old text and [post] is empty. The pending image is appended to the list
    of pending images. *)
Theorem handleImageUpload_own_line value textarea pending markdown img :
  ∃ pre post,
    handleImageUpload value textarea pending markdown img
    = (pending ++ [img], pre ++ markdown ++ [10%N] ++ post) ∧
    (pre = [] ∨ ∃ p, pre = p ++ [10%N]) ∧
    match textarea with
    | None => take (length value) pre = value ∧ post = []
    | Some ta =>
      take (length (take (selectionStart ta) value)) pre
        = take (selectionStart ta) value ∧
      post = drop (selectionStart ta) value
    end.
Proof.
  unfold handleImageUpload, strlen. destruct textarea as [[start end_]|].
  - cbn [selectionStart]. rewrite substring_prefix, substring_suffix.
    set (before := take start value).
    destruct ((0 <? length before) && negb (endsWith before (str "\n"))) eqn:Hnl.
    + exists (before ++ str "\n\n"), (drop start value).
      split_and!; [by rewrite <-app_assoc| |by rewrite take_app_length|done].
      right. exists (before ++ [10%N]). by rewrite <-app_assoc.
    + exists before, (drop start value).
      split_and!; [done| |by rewrite take_ge|done].
      apply line_start_cases. change [10%N] with (str "\n"). by rewrite Hnl.
  - exists (value ++ str "\n\n"), [].
    split_and!; [by rewrite <-!app_assoc, app_nil_r| |by rewrite take_app_length|done].
    right. exists (value ++ [10%N]). by rewrite <-app_assoc.
Qed.

End text_mutators_more.

(** ** The slug of the frontmatter form *)

Section slug_facts.
Variable toLowerCase : list N → list N.
Implicit Types s : list N.

Lemma isHyphen_true c : isHyphen c = true ↔ c = 45%N.
Proof. unfold isHyphen. by destruct (N.eqb_spec c 45). Qed.

Lemma replaceRuns_hyphen_single s : ∀ inRun,
  (inRun = true → head (replaceRuns isHyphen inRun s) ≠ Some 45%N) ∧
  noDoubleHyphen (replaceRuns isHyphen inRun s).
Proof.
  induction s as [|c r IH]; intros inRun; [done|].
  cbn [replaceRuns]. destruct (isHyphen c) eqn:Hc.
  - destruct inRun.
    + apply IH.
    + split; [done|]. cbn [noDoubleHyphen]. split; [|apply IH].
      intros _. by apply IH.
  - assert (c ≠ 45%N) by (intros ->; done).
    split; [intros _ [=]; done|]. cbn [noDoubleHyphen]. split; [done|apply IH].
Qed.

Lemma replaceRuns_slug_chars s : ∀ inRun,
  Forall (λ c, isSlugChar c = true) s →
  Forall (λ c, isSlugChar c = true) (replaceRuns isHyphen inRun s).
Proof.
  induction s as [|c r IH]; intros inRun Hs; [done|].
  apply Forall_cons in Hs as [Hc Hr]. cbn [replaceRuns].
  destruct (isHyphen c); [destruct inRun|]; auto.
Qed.

Lemma filter_slug_chars s : Forall (λ c, isSlugChar c = true) (List.filter isSlugChar s).
Proof.
  induction s as [|c r IH]; [done|]. cbn [List.filter].
  destruct (isSlugChar c) eqn:Hc; auto.
Qed.

Lemma noDoubleHyphen_app_inv s t :
  noDoubleHyphen (s ++ t) → noDoubleHyphen s ∧ noDoubleHyphen t.
Proof.
  induction s as [|c r IH]; [done|]. cbn [app noDoubleHyphen].
  intros [Hc Hr]. apply IH in Hr as [??]. split_and!; try done.
  intros ->. destruct r; [done|]. by apply Hc.
Qed.

Lemma noDoubleHyphen_last s :
  noDoubleHyphen (s ++ [45%N]) → last s ≠ Some 45%N.
Proof.
  induction s as [|c r IH]; [done|]. cbn [app noDoubleHyphen]. intros [Hc Hr].
  destruct r as [|c' r']; [|by apply IH].
  cbn. intros [= ->]. by apply Hc.
Qed.

Lemma stripHyphenEnds_well_formed s :
  Forall (λ c, isSlugChar c = true) s → noDoubleHyphen s →
  wellFormedSlug (stripHyphenEnds s).
Proof.
  intros Hchars Hsingle. unfold stripHyphenEnds.
  set (s1 := match s with c :: r => if isHyphen c then r else s | [] => s end).
  assert (Forall (λ c, isSlugChar c = true) s1 ∧ noDoubleHyphen s1 ∧
          head s1 ≠ Some 45%N) as (Hchars1 & Hsingle1 & Hhead1).
  { unfold s1. destruct s as [|c r]; [done|].
    destruct (isHyphen c) eqn:Hc.
    - apply isHyphen_true in Hc as ->. apply Forall_cons in Hchars as [_ ?].
      destruct Hsingle as [Hc ?]. auto.
    - split_and!; try done. intros [= ->]. done. }
  clearbody s1. clear s Hchars Hsingle.
  destruct (endsWith s1 (str "-")) eqn:Hends.
  - apply endsWith_spec in Hends as [p ->].
    rewrite length_app. cbn [length str literal list_ascii_of_string].
    replace (length p + 1 - 1) with (length p) by lia.
    rewrite take_app_length.
    apply Forall_app in Hchars1 as [Hp _].
    pose proof (noDoubleHyphen_last _ Hsingle1).
    apply noDoubleHyphen_app_inv in Hsingle1 as [Hp' _].
    split_and!; try done. by destruct p.
  - split_and!; try done.
    intros Hlast. apply endsWith_false in Hends. apply Hends.
    apply last_Some in Hlast as [p ->]. by exists p.
Qed.

Lemma slugFromTitle_well_formed_aux title :
  wellFormedSlug (slugFromTitle toLowerCase title).
Proof.
  unfold slugFromTitle. apply stripHyphenEnds_well_formed.
  - apply replaceRuns_slug_chars, filter_slug_chars.
  - apply replaceRuns_hyphen_single.
Qed.

Lemma isSlugChar_not_separator c : isSlugChar c = true → isSeparator c = false.
Proof.
  unfold isSlugChar, isSeparator, isWhiteSpace. intros Hc.
  assert ((97 ≤ c ≤ 122)%N ∨ (48 ≤ c ≤ 57)%N ∨ c = 45%N) as Hrange.
  { destruct (N.leb_spec 97 c), (N.leb_spec c 122), (N.leb_spec 48 c),
      (N.leb_spec c 57), (N.eqb_spec c 45); cbn in Hc; try done; lia. }
  rewrite bool_decide_eq_false_2.
  - destruct (N.leb_spec 8192 c), (N.leb_spec c 8202), (N.eqb_spec c 95);
      cbn; try done; lia.
  - rewrite !elem_of_cons, elem_of_nil. lia.
Qed.

Lemma filter_all (P : N → bool) s :
  Forall (λ c, P c = true) s → List.filter P s = s.
Proof.
  induction 1 as [|c r Hc _ IH]; [done|]. cbn [List.filter].
  by rewrite Hc, IH.
Qed.

Lemma replaceRuns_hyphen_id s : ∀ inRun,
  (inRun = true → head s ≠ Some 45%N) → noDoubleHyphen s →
  replaceRuns isHyphen inRun s = s.
Proof.
  induction s as [|c r IH]; intros inRun Hhead Hs; [done|].
  destruct Hs as [Hc Hr].
  cbn [replaceRuns]. destruct (isHyphen c) eqn:Hhy.
  - apply isHyphen_true in Hhy as ->.
    destruct inRun; [by destruct Hhead|]. f_equal. apply IH; auto.
  - f_equal. by apply IH.
Qed.

Lemma stripHyphenEnds_id s :
  head s ≠ Some 45%N → last s ≠ Some 45%N → stripHyphenEnds s = s.
Proof.
  intros Hhead Hlast. unfold stripHyphenEnds.
  assert (match s with c :: r => if isHyphen c then r else s | [] => s end = s)
    as ->.
  { destruct s as [|c r]; [done|]. destruct (isHyphen c) eqn:Hc; [|done].
    apply isHyphen_true in Hc as ->. by destruct Hhead. }
  destruct (endsWith s (str "-")) eqn:Hends; [|done].
  apply endsWith_spec in Hends as [p ->]. destruct Hlast. apply last_snoc.
Qed.

Lemma slugFromTitle_fixed s :
  wellFormedSlug s → toLowerCase s = s → slugFromTitle toLowerCase s = s.
Proof.
  intros (Hchars & Hsingle & Hhead & Hlast) Hlower. unfold slugFromTitle.
  rewrite Hlower.
  rewrite (replaceRuns_without_class isSeparator)
    by (apply (Forall_impl _ _ _ Hchars), isSlugChar_not_separator).
  rewrite filter_all by done.
  rewrite replaceRuns_hyphen_id by done.
  by apply stripHyphenEnds_id.
Qed.

Lemma toLowerCaseASCII_slug s :
  Forall (λ c, isSlugChar c = true) s → toLowerCaseASCII s = s.
Proof.
  unfold toLowerCaseASCII. induction 1 as [|c r Hc _ IH]; [done|].
  cbn [fmap list_fmap]. f_equal; [|done].
  unfold isSlugChar in Hc.
  destruct (N.leb_spec 97 c), (N.leb_spec c 122), (N.leb_spec 48 c),
    (N.leb_spec c 57), (N.eqb_spec c 45), (N.leb_spec 65 c), (N.leb_spec c 90);
    cbn in *; try done; lia.
Qed.
End slug_facts.

(** The slug that [handleTitleChange] derives from a title is in normal
    form, whatever the title: it consists of the characters a-z, 0-9 and
    hyphen only, no two hyphens are adjacent, and it neither begins nor ends
    with a hyphen. A title change on a form that shows the slug and was
    given no default slug sets the slug to it; on a form that hides the slug
    or has a default slug the slug stays as it is. *)
Theorem slugFromTitle_well_formed (toLowerCase : list N → list N) title :
  wellFormedSlug (slugFromTitle toLowerCase title) ∧
  (∀ values,
     handleTitleChange toLowerCase false None values title
     = mkTitleAndSlug title (slugFromTitle toLowerCase title)) ∧
  (∀ hideSlug defaultSlug values,
     hideSlug = true ∨ (∃ s, defaultSlug = Some s ∧ s ≠ []) →
     handleTitleChange toLowerCase hideSlug defaultSlug values title
     = mkTitleAndSlug title (formSlug values)).
Proof.
  split; [apply slugFromTitle_well_formed_aux|]. split; [done|].
  intros hideSlug defaultSlug values [->|(s & -> & Hs)]; [done|].
  unfold handleTitleChange. destruct s; [done|]. cbn [truthy negb].
  by rewrite andb_false_r.
Qed.

(** A title with blanks, punctuation, an underscore and hyphens; and a title
    change on the edit form, which hides the slug. *)
Lemma slugFromTitle_well_formed_witness :
  slugFromTitle toLowerCaseASCII (str "  Hello,  World -- 2nd_Edition! ")
  = str "hello-world-2nd-edition" ∧
  handleTitleChange toLowerCaseASCII true None
    (mkTitleAndSlug (str "Old") (str "old")) (str "New Title")
  = mkTitleAndSlug (str "New Title") (str "old").
Proof.
  split; [vm_compute; reflexivity|].
  exact (proj2 (proj2 (slugFromTitle_well_formed toLowerCaseASCII (str "New Title")))
           true None _ (or_introl eq_refl)).
Defined.

(** A slug in normal form that lower-casing leaves alone is its own slug;
    hence, when lower-casing leaves every string of slug characters alone,
    deriving the slug is idempotent. *)
Theorem slugFromTitle_idempotent (toLowerCase : list N → list N) :
  (∀ s, wellFormedSlug s → toLowerCase s = s →
        slugFromTitle toLowerCase s = s) ∧
  ((∀ s, Forall (λ c, isSlugChar c = true) s → toLowerCase s = s) →
   ∀ title, slugFromTitle toLowerCase (slugFromTitle toLowerCase title)
            = slugFromTitle toLowerCase title).
Proof.
  split; [apply slugFromTitle_fixed|].
  intros Hlower title.
  pose proof (slugFromTitle_well_formed_aux toLowerCase title) as Hwf.
  apply slugFromTitle_fixed; [done|]. apply Hlower, Hwf.
Qed.

(** Lower-casing A to Z leaves slug characters alone. *)
Lemma slugFromTitle_idempotent_witness :
  (∀ s, Forall (λ c, isSlugChar c = true) s → toLowerCaseASCII s = s) ∧
  slugFromTitle toLowerCaseASCII (slugFromTitle toLowerCaseASCII (str "My First Post"))
  = slugFromTitle toLowerCaseASCII (str "My First Post").
Proof.
  split; [exact toLowerCaseASCII_slug|].
  exact (proj2 (slugFromTitle_idempotent toLowerCaseASCII) toLowerCaseASCII_slug
           (str "My First Post")).
Defined.

(** ** The tag input *)

Section tag_input.
Variable toLowerCase : list N → list N.
Implicit Types (value : list (list N)).

Lemma removeTag_aux value index : ∀ k,
  snd <$> List.filter (λ p, negb (p.1 =? k + index)) (zip (seq k (length value)) value)
  = delete index value.
Proof.
  revert index. induction value as [|t value IH]; intros index k; [done|].
  cbn [length seq zip zip_with List.filter fst].
  destruct index as [|index].
  - rewrite Nat.add_0_r, Nat.eqb_refl. cbn [negb delete list_delete].
    clear IH. 
    assert (∀ l (j : nat), k < j →
      snd <$> List.filter (λ p : nat * list N, negb (p.1 =? k)) (zip (seq j (length l)) l) = l) as H.
    { induction l as [|x l IHl]; intros j Hj; [done|].
      cbn [length seq zip zip_with List.filter fst].
      destruct (Nat.eqb_spec j k); [lia|]. cbn [negb fmap list_fmap snd].
      f_equal. apply IHl. lia. }
    apply H. lia.
  - destruct (Nat.eqb_spec k (k + S index)); [lia|].
    cbn [negb fmap list_fmap snd delete list_delete]. f_equal.
    replace (k + S index) with (S k + index) by lia. apply IH.
Qed.

Lemma removeTag_delete value index : removeTag value index = delete index value.
Proof. apply (removeTag_aux value index 0). Qed.

Lemma NoDup_delete value index : NoDup value → NoDup (delete index value).
Proof. intros H. eapply sublist_NoDup; [done|apply sublist_delete]. Qed.

Lemma not_elem_of_delete value index (t : list N) :
  t ∉ value → t ∉ delete index value.
Proof.
  intros Ht Hin. apply Ht. eapply elem_of_sublist; [done|apply sublist_delete].
Qed.

Lemma addTag_keeps value inputValue :
  NoDup value → [] ∉ value →
  NoDup (addTag toLowerCase value inputValue).1 ∧
  [] ∉ (addTag toLowerCase value inputValue).1.
Proof.
  intros Hnd Hne. unfold addTag. cbn [fst].
  destruct (truthy _) eqn:Htag; [|done]. case_bool_decide as Hin; [done|].
  cbn [negb andb]. split.
  - apply NoDup_app. split_and!; [done| |apply NoDup_singleton].
    intros x Hx ->%list_elem_of_singleton. done.
  - rewrite elem_of_app, list_elem_of_singleton. intros [?|Heq]; [done|].
    rewrite <-Heq in Htag. done.
Qed.

(** The tag input keeps its tags free of duplicates and of the empty tag:
    if the tags are so before, they are so after [addTag] (on Enter, comma
    or blur), after [removeTag] at any index, and after [handleKeyDown] for
    any key. *)
Theorem tags_stay_distinct value inputValue key index :
  NoDup value → [] ∉ value →
  (NoDup (addTag toLowerCase value inputValue).1 ∧
   [] ∉ (addTag toLowerCase value inputValue).1) ∧
  (NoDup (removeTag value index) ∧ [] ∉ removeTag value index) ∧
  (NoDup (handleKeyDown toLowerCase key value inputValue).1 ∧
   [] ∉ (handleKeyDown toLowerCase key value inputValue).1).
Proof.
  intros Hnd Hne. split; [by apply addTag_keeps|].
  assert (∀ i, NoDup (removeTag value i) ∧ [] ∉ removeTag value i) as Hremove.
  { intros i. rewrite removeTag_delete.
    split; [by apply NoDup_delete|by apply not_elem_of_delete]. }
  split; [done|]. unfold handleKeyDown.
  destruct (_ || _); [by apply addTag_keeps|].
  destruct (_ && _ && _); [apply Hremove|done].
Qed.

(** [removeTag] takes out the tag at the index and nothing else; an index
    beyond the last tag changes nothing. Pressing Backspace right after a
    tag was added takes that tag out again: when the trimmed, lower-cased
    input is neither empty nor among the tags, [addTag] appends it and
    empties the input, and Backspace then gives the old tags back. When it
    is empty or among the tags already, [addTag] only empties the input. *)
Theorem addTag_then_backspace value inputValue index :
  let tag := toLowerCase (trim inputValue) in
  removeTag value index = delete index value ∧
  (length value ≤ index → removeTag value index = value) ∧
  (tag ≠ [] → tag ∉ value →
     addTag toLowerCase value inputValue = (value ++ [tag], []) ∧
     handleKeyDown toLowerCase (str "Backspace") (value ++ [tag]) [] = (value, [])) ∧
  (tag = [] ∨ tag ∈ value → addTag toLowerCase value inputValue = (value, [])).
Proof.
  intros tag. split; [apply removeTag_delete|]. split.
  { intros Hi. rewrite removeTag_delete, delete_take_drop.
    rewrite take_ge, drop_ge by lia. apply app_nil_r. }
  split.
  - intros Hne Hnotin. unfold addTag. fold tag.
    rewrite (proj2 (truthy_nonempty tag) Hne), bool_decide_eq_false_2 by done.
    split; [done|]. unfold handleKeyDown.
    rewrite (bool_decide_eq_false_2 (str "Backspace" = str "Enter")) by done.
    rewrite (bool_decide_eq_false_2 (str "Backspace" = str ",")) by done.
    rewrite (bool_decide_eq_true_2 (str "Backspace" = str "Backspace")) by done.
    rewrite (bool_decide_eq_true_2 ([] = str "")) by done.
    rewrite length_app. cbn [orb andb length].
    destruct (Nat.ltb_spec 0 (length value + 1)); [|lia].
    rewrite removeTag_delete.
    replace (length value + 1 - 1) with (length value) by lia.
    by rewrite (delete_middle value [] tag), app_nil_r.
  - unfold addTag. fold tag. intros [->|Hin]; [done|].
    rewrite (bool_decide_eq_true_2 _ Hin). by rewrite andb_false_r.
Qed.
End tag_input.

(** Adding "  Rocq " to the tags [coq] and taking it out again. *)
Lemma addTag_then_backspace_witness :
  toLowerCaseASCII (trim (str "  Rocq ")) ≠ [] ∧
  (toLowerCaseASCII (trim (str "  Rocq ")) ∉ [str "coq"]) ∧
  addTag toLowerCaseASCII [str "coq"] (str "  Rocq ")
    = ([str "coq"; str "rocq"], []).
Proof.
  assert (toLowerCaseASCII (trim (str "  Rocq ")) ≠ []) as H1
    by (vm_compute; discriminate).
  assert (toLowerCaseASCII (trim (str "  Rocq ")) ∉ [str "coq"]) as H2.
  { vm_compute. intros Hin. apply list_elem_of_singleton in Hin. discriminate Hin. }
  split; [exact H1|]. split; [exact H2|].
  exact (proj1 (proj1 (proj2 (proj2 (addTag_then_backspace toLowerCaseASCII
           [str "coq"] (str "  Rocq ") 0))) H1 H2)).
Defined.

(** Two distinct tags stay distinct when a third is typed. *)
Lemma tags_stay_distinct_witness :
  NoDup [str "coq"; str "proof"] ∧ ([] ∉ [str "coq"; str "proof"]) ∧
  NoDup (handleKeyDown toLowerCaseASCII (str "Enter") [str "coq"; str "proof"]
           (str "Coq")).1.
Proof.
  assert (NoDup [str "coq"; str "proof"]) as H1.
  { apply NoDup_cons. split; [|apply NoDup_singleton].
    intros Hin. apply list_elem_of_singleton in Hin. discriminate Hin. }
  assert ([] ∉ [str "coq"; str "proof"]) as H2.
  { intros Hin. apply elem_of_cons in Hin as [Hin|Hin]; [discriminate Hin|].
    apply list_elem_of_singleton in Hin. discriminate Hin. }
  split; [exact H1|]. split; [exact H2|].
  exact (proj1 (proj2 (proj2 (tags_stay_distinct toLowerCaseASCII
           [str "coq"; str "proof"] (str "Coq") (str "Enter") 0 H1 H2)))).
Defined.

(** ** Image paths of the preview *)

Section image_urls.
Implicit Types src filename : list N.

Lemma matchRelativePattern_proxy (slug : list N) filename :
  matchRelativePattern (str "/api/images/proxy/" ++ slug ++ str "/" ++ filename) = None.
Proof. done. Qed.

Lemma matchRelativePattern_images filename :
  filename ≠ [] → forallb (λ c, negb (isLineTerminator c)) filename = true →
  matchRelativePattern (str "/images/" ++ filename) = Some filename ∧
  matchRelativePattern (str "./images/" ++ filename) = Some filename.
Proof.
  intros Hne Hline.
  assert (startsWith (str "/images/" ++ filename) (str "/images/") = true) as Hstart.
  { unfold startsWith, strlen. rewrite take_app_length. by apply bool_decide_eq_true. }
  assert (drop (strlen (str "/images/")) (str "/images/" ++ filename) = filename)
    as Hdrop by (unfold strlen; by rewrite drop_app_length).
  assert (skipDot (str "/images/" ++ filename) = str "/images/" ++ filename)
    as Hskip1 by done.
  assert (skipDot (str "./images/" ++ filename) = str "/images/" ++ filename)
    as Hskip2.
  { change (str "./images/" ++ filename) with (46%N :: (str "/images/" ++ filename)).
    cbn [skipDot]. by rewrite Hstart. }
  unfold matchRelativePattern. cbv zeta.
  rewrite Hskip1, Hskip2, Hstart, Hdrop, Hline.
  by rewrite (proj2 (truthy_nonempty filename) Hne).
Qed.

(** [transformImageUrl] returns its argument unless it builds a proxy path,
    and applying it to its own result changes nothing. With a non-empty
    slug, "/images/" or "./images/" followed by a non-empty file name
    without line terminators becomes "/api/images/proxy/", the slug, a
    slash and the file name. Without a slug, or for "images/" not preceded
    by a slash, the source is returned as it is. *)
Theorem transformImageUrl_proxies_relative_images src (slug : option (list N)) filename :
  (transformImageUrl src slug = src ∨
   ∃ s f, slug = Some s ∧
          transformImageUrl src slug = str "/api/images/proxy/" ++ s ++ str "/" ++ f) ∧
  transformImageUrl (transformImageUrl src slug) slug = transformImageUrl src slug ∧
  transformImageUrl src None = src ∧ transformImageUrl src (Some []) = src ∧
  transformImageUrl (str "images/" ++ filename) slug = str "images/" ++ filename ∧
  (∀ s, s ≠ [] → filename ≠ [] →
     forallb (λ c, negb (isLineTerminator c)) filename = true →
     transformImageUrl (str "/images/" ++ filename) (Some s)
       = str "/api/images/proxy/" ++ s ++ str "/" ++ filename ∧
     transformImageUrl (str "./images/" ++ filename) (Some s)
       = str "/api/images/proxy/" ++ s ++ str "/" ++ filename).
Proof.
  assert (transformImageUrl src slug = src ∨
    ∃ s f, slug = Some s ∧ s ≠ [] ∧
      transformImageUrl src slug = str "/api/images/proxy/" ++ s ++ str "/" ++ f)
    as Hcases.
  { unfold transformImageUrl. destruct slug as [[|c s]|]; [by left..| |by left].
    cbn [truthy negb orb]. destruct (truthy src); [|by left]. cbn [negb].
    destruct (matchRelativePattern src) as [f|]; [|by left].
    right. by exists (c :: s), f. }
  split_and!.
  - destruct Hcases as [?|(s & f & ? & _ & ?)]; eauto.
  - destruct Hcases as [H|(s & f & -> & Hs & ->)]; [by rewrite !H|].
    unfold transformImageUrl at 1. destruct s; [done|].
    by rewrite matchRelativePattern_proxy.
  - done.
  - done.
  - unfold transformImageUrl. destruct slug as [s|]; [|done].
    destruct (negb (truthy s) || _); [done|].
    assert (matchRelativePattern (str "images/" ++ filename) = None) as ->; [|done].
    unfold matchRelativePattern. cbv zeta.
    assert (skipDot (str "images/" ++ filename) = str "images/" ++ filename)
      as -> by done.
    assert (startsWith (str "images/" ++ filename) (str "/images/") = false)
      as -> by (apply bool_decide_eq_false; intros [=]).
    done.
  - intros s Hs Hne Hline. unfold transformImageUrl.
    destruct s; [done|]. cbn [truthy negb orb].
    destruct (matchRelativePattern_images filename Hne Hline) as [-> ->]. done.
Qed.

(** A local image of the post "hello". *)
Lemma transformImageUrl_proxies_relative_images_witness :
  str "hello" ≠ [] ∧ str "cat.png" ≠ [] ∧
  transformImageUrl (str "./images/cat.png") (Some (str "hello"))
  = str "/api/images/proxy/hello/cat.png".
Proof.
  assert (str "hello" ≠ []) as H1 by discriminate.
  assert (str "cat.png" ≠ []) as H2 by discriminate.
  split; [exact H1|]. split; [exact H2|].
  destruct (transformImageUrl_proxies_relative_images (str "x") None (str "cat.png"))
    as (_ & _ & _ & _ & _ & Hproxy).
  exact (proj2 (Hproxy (str "hello") H1 H2 eq_refl)).
Defined.
End image_urls.

(** ** The in-memory post store *)

Section mock_data.
Import MockData.
Implicit Types (store : list Post) (s : list N).

Lemma findIndex_find {A} (p : A → bool) (l : list A) :
  match findIndex p l with
  | Some i => ∃ x, l !! i = Some x ∧ List.find p l = Some x ∧ p x = true
  | None => List.find p l = None
  end.
Proof.
  induction l as [|x l IH]; [done|]. cbn [findIndex List.find].
  destruct (p x) eqn:Hx; [by exists x|].
  destruct (findIndex p l) as [i|]; [|done]. cbn. done.
Qed.

Lemma hasSlug_other s s' post : hasSlug s post = true → s' ≠ s → hasSlug s' post = false.
Proof.
  unfold hasSlug. intros Hs%bool_decide_eq_true Hne.
  apply bool_decide_eq_false. congruence.
Qed.

(** Removing or replacing the first post that has slug [s] does not change
    which post is found first under another slug. *)
Lemma find_other_delete store s s' :
  s' ≠ s →
  match findIndex (hasSlug s) store with
  | Some i => List.find (hasSlug s') (delete i store) = List.find (hasSlug s') store
  | None => True
  end.
Proof.
  intros Hne. induction store as [|x store IH]; [done|]. cbn [findIndex].
  destruct (hasSlug s x) eqn:Hx.
  - cbn [delete list_delete List.find]. by rewrite (hasSlug_other s s' x).
  - destruct (findIndex (hasSlug s) store) as [i|]; [|done].
    cbn [fmap option_fmap option_map delete list_delete List.find].
    destruct (hasSlug s' x); [done|exact IH].
Qed.

Lemma find_other_insert store s s' post :
  s' ≠ s → slug post = s →
  match findIndex (hasSlug s) store with
  | Some i => List.find (hasSlug s') (<[i := post]> store) = List.find (hasSlug s') store
  | None => True
  end.
Proof.
  intros Hne Hpost. induction store as [|x store IH]; [done|]. cbn [findIndex].
  destruct (hasSlug s x) eqn:Hx.
  - cbn [insert list_insert List.find].
    rewrite (hasSlug_other s s' x) by done.
    rewrite (hasSlug_other s s' post); [done| |done].
    by apply bool_decide_eq_true.
  - destruct (findIndex (hasSlug s) store) as [i|]; [|done].
    cbn [fmap option_fmap option_map insert list_insert List.find].
    destruct (hasSlug s' x); [done|exact IH].
Qed.

Lemma find_same_insert store s post :
  slug post = s →
  match findIndex (hasSlug s) store with
  | Some i => List.find (hasSlug s) (<[i := post]> store) = Some post ∧
              <[i := post]> store !! i = Some post
  | None => True
  end.
Proof.
  intros Hpost. induction store as [|x store IH]; [done|]. cbn [findIndex].
  destruct (hasSlug s x) eqn:Hx.
  - cbn [insert list_insert List.find].
    by rewrite (bool_decide_eq_true_2 _ Hpost : hasSlug s post = true).
  - destruct (findIndex (hasSlug s) store) as [i|]; [|done].
    cbn [fmap option_fmap option_map insert list_insert List.find lookup list_lookup].
    by rewrite Hx.
Qed.

Lemma find_same_delete store s :
  NoDup (slug <$> store) →
  match findIndex (hasSlug s) store with
  | Some i => List.find (hasSlug s) (delete i store) = None
  | None => True
  end.
Proof.
  induction store as [|x store IH]; [done|]. cbn [fmap list_fmap findIndex].
  intros [Hx Hnd]%NoDup_cons. destruct (hasSlug s x) eqn:Hs.
  - cbn [delete list_delete]. apply bool_decide_eq_true in Hs.
    destruct (List.find (hasSlug s) store) as [y|] eqn:Hy; [|done].
    apply List.find_some in Hy as [Hin Hys%bool_decide_eq_true].
    destruct Hx. rewrite Hs, <-Hys. apply list_elem_of_fmap_2.
    by apply list_elem_of_In.
  - destruct (findIndex (hasSlug s) store) as [i|] eqn:Hi; [|done].
    cbn [fmap option_fmap option_map delete list_delete List.find].
    rewrite Hs. exact (IH Hnd).
Qed.

(** A post created is the post found under its slug, with the file path
    "src/content/posts/", the slug, "/index.md", also when the store already
    held a post with that slug. Lookups under other slugs are not affected,
    and deleting the slug right away gives the old store back. *)
Theorem createMockPost_then_lookup (data : PostData) store :
  let newPost := (createMockPost data store).1 in
  let store' := (createMockPost data store).2 in
  getMockPost (data_slug data) store' = Some newPost ∧
  slug newPost = data_slug data ∧
  file_path newPost = str "src/content/posts/" ++ data_slug data ++ str "/index.md" ∧
  (∀ s, s ≠ data_slug data → getMockPost s store' = getMockPost s store) ∧
  deleteMockPost (data_slug data) store' = (true, store) ∧
  length store' = S (length store).
Proof.
  intros newPost store'. unfold newPost, store', getMockPost, deleteMockPost, createMockPost.
  cbn [fst snd List.find findIndex slug file_path length].
  set (newPost' := mkPost _ _ _ _ _ _ _ _).
  assert (hasSlug (data_slug data) newPost' = true) as ->
    by by apply bool_decide_eq_true.
  split_and!; try done.
  intros s Hs.
  assert (hasSlug s newPost' = false) as ->; [|done].
  apply bool_decide_eq_false. by intros <-.
Qed.

(** [deleteMockPost] answers false exactly when no post has the slug, and
    then leaves the store as it is. When it answers true the store has one
    post fewer and lookups under other slugs are not affected; if no two
    posts of the store shared a slug, no post is found under the deleted
    slug any more. *)
Theorem deleteMockPost_removes_first_match s store :
  let store' := (deleteMockPost s store).2 in
  ((deleteMockPost s store).1 = false ↔ getMockPost s store = None) ∧
  (getMockPost s store = None → store' = store) ∧
  (is_Some (getMockPost s store) →
     (deleteMockPost s store).1 = true ∧ S (length store') = length store ∧
     (NoDup (slug <$> store) → getMockPost s store' = None)) ∧
  (∀ s', s' ≠ s → getMockPost s' store' = getMockPost s' store).
Proof.
  intros store'. unfold store', deleteMockPost, getMockPost.
  pose proof (findIndex_find (hasSlug s) store) as Hfind.
  pose proof (find_same_delete store s) as Hsame.
  destruct (findIndex (hasSlug s) store) as [i|] eqn:Hi; cbn [fst snd].
  - destruct Hfind as (x & Hx & Hfx & _). rewrite Hfx. split_and!; try done.
    + intros _. split_and!; [done| |done].
      rewrite length_delete by eauto.
      apply lookup_lt_Some in Hx. lia.
    + intros s' Hs'. pose proof (find_other_delete store s s' Hs') as H.
      by rewrite Hi in H.
  - rewrite Hfind. split_and!; try done.
Qed.

(** [updateMockPost] under a slug no post has returns [undefined] and leaves
    the store as it is. Otherwise, for data that do not set the slug, it
    returns the first post with that slug overlaid with the data; that post
    is then the one found under the slug, the store keeps its length, and
    lookups under other slugs are not affected. *)
Theorem updateMockPost_overlays_first_match s (data : PartialPost) store :
  let result := (updateMockPost s data store).1 in
  let store' := (updateMockPost s data store).2 in
  (getMockPost s store = None → result = None ∧ store' = store) ∧
  (∀ post, getMockPost s store = Some post → new_slug data = None →
     result = Some (spread post data) ∧
     getMockPost s store' = Some (spread post data) ∧
     length store' = length store ∧
     ∀ s', s' ≠ s → getMockPost s' store' = getMockPost s' store).
Proof.
  intros result store'. unfold result, store', updateMockPost, getMockPost.
  pose proof (findIndex_find (hasSlug s) store) as Hfind.
  destruct (findIndex (hasSlug s) store) as [i|] eqn:Hi.
  - destruct Hfind as (x & Hx & Hfx & Hpx). rewrite Hfx, Hx. cbn [fst snd].
    split; [done|]. intros post [= <-] Hslug.
    assert (slug (spread x data) = s) as Hs.
    { unfold spread. cbn [slug]. rewrite Hslug. cbn.
      by apply bool_decide_eq_true in Hpx. }
    pose proof (find_same_insert store s _ Hs) as Hsame. rewrite Hi in Hsame.
    destruct Hsame as [Hfound Hat].
    split_and!; [done|done|apply length_insert|].
    intros s' Hs'. pose proof (find_other_insert store s s' _ Hs' Hs) as H.
    by rewrite Hi in H.
  - rewrite Hfind. cbn [fst snd]. split; [done|]. by intros post [=].
Qed.
End mock_data.

(** ** The recovery dialog, continued *)

Section dialog_openings.
Implicit Types (p : Page).

(** What an event does to the two flags the dialog effect depends on:
    [isHydrated] stays; [hasDraft] stays, or is cleared by a discard, or is
    set by an auto-save tick that writes the snapshot of its data. *)
Lemma eventOnWorld_flags key e w :
  let w' := (eventOnWorld key e w).2 in
  isHydrated (hook w') = isHydrated (hook w) ∧
  (hasDraft (hook w') = hasDraft (hook w) ∨
   (e = DiscardDraft ∧ hasDraft (hook w') = false) ∨
   (∃ now d, e = AutoSaveTick now (Some d) ∧ hasDraft (hook w') = true ∧
      localStorage w' !! storageKey key
      = Some (JSON_stringify (DraftData_object (mkDraftData d now))))).
Proof.
  destruct e as [getData|now getData| | |id]; cbn [eventOnWorld].
  - unfold changeCheckTick, mbind, M_bind. destruct getData as [d|]; [|by split; [|left]].
    rewrite checkForChanges_Some. cbn zeta.
    destruct (lastSavedHashRef (hook w)); by split; [|left].
  - unfold autoSaveTick, mbind, M_bind. destruct getData as [d|]; [|by split; [|left]].
    rewrite checkForChanges_Some. cbn zeta.
    destruct (lastSavedHashRef (hook w)) as [last|]; [|by split; [|left]].
    destruct (negb _); [|by split; [|left]].
    rewrite saveDraft_Some. case_bool_decide; [by split; [|left]|].
    cbn [snd hook localStorage isHydrated hasDraft]. split; [done|].
    right; right. exists now, d. by rewrite lookup_insert_eq.
  - unfold mbind, M_bind. rewrite loadDraft_eq. by split; [|left].
  - rewrite clearDraft_eq. cbn [snd hook isHydrated hasDraft]. split; [done|].
    right; left. done.
  - by split; [|left].
Qed.

Lemma dialogCondition_hasDraft p :
  hasDraft (hook (world p)) = false → dialogCondition p = false.
Proof.
  unfold dialogCondition. intros ->. destruct (route p); by rewrite andb_false_r.
Qed.

(** When the recovery dialog opens. On a page whose dialog effect is up to
    date, an event opens the closed dialog only if it is an auto-save tick
    that stores a draft while [hasDraft] was false, or the arrival of a new
    query result; dirty-check ticks, restoring and discarding never open
    it. After every event the dialog effect is up to date again. *)
Theorem dialog_opens_only_on_new_draft_or_post p e :
  dialogEffectDeps p = Some (currentDeps p) →
  showDraftDialog p = false →
  dialogEffectDeps (step p e) = Some (currentDeps (step p e)) ∧
  (showDraftDialog (step p e) = true →
   (∃ now d, e = AutoSaveTick now (Some d) ∧
      hasDraft (hook (world p)) = false ∧ hasDraft (hook (world (step p e))) = true ∧
      localStorage (world (step p e)) !! storageKey (draftKey (route p))
      = Some (JSON_stringify (DraftData_object (mkDraftData d now)))) ∨
   (∃ id, e = PostLoaded id ∧ post p ≠ Some id)).
Proof.
  intros Hsync Hclosed. split.
  { destruct e; cbn [step]; unfold withWorld, handleRestoreDraft, handleDiscardDraft;
      apply commit_synced. }
  pose proof (eventOnWorld_flags (draftKey (route p)) e (world p)) as Hflags.
  cbv zeta in Hflags. rewrite <-world_step in Hflags.
  destruct Hflags as [Hhyd Hdraft].
  assert (∀ w' pst,
    isHydrated (hook w') = isHydrated (hook (world p)) →
    hasDraft (hook w') = hasDraft (hook (world p)) → pst = post p →
    showDraftDialog (commit (mkPage (route p) w' false pst (dialogEffectDeps p)))
    = false) as Hsame.
  { intros w' pst Hh Hd ->. rewrite showDraftDialog_commit.
    rewrite bool_decide_eq_true_2; [done|].
    rewrite Hsync. unfold currentDeps. cbn [world post]. by rewrite Hh, Hd. }
  destruct e as [getData|now getData| | |id].
  - intros Hopen. exfalso. revert Hopen.
    rewrite world_step in Hhyd, Hdraft.
    destruct Hdraft as [Hd|[[[=] _]|(? & ? & [=] & _)]].
    cbn [step]. unfold withWorld. rewrite Hclosed.
    cbn [eventOnWorld] in Hhyd, Hd. by rewrite (Hsame _ _ Hhyd Hd eq_refl).
  - intros Hopen. rewrite world_step in Hhyd.
    destruct Hdraft as [Hd|[[[=] _]|(now' & d & [= <- ->] & Hset & Hstored)]].
    + exfalso. revert Hopen. rewrite world_step in Hd.
      cbn [step]. unfold withWorld. rewrite Hclosed.
      cbn [eventOnWorld] in Hhyd, Hd. by rewrite (Hsame _ _ Hhyd Hd eq_refl).
    + left. exists now, d. split_and!; [done| |done|done].
      destruct (hasDraft (hook (world p))) eqn:Hwas; [|done].
      exfalso. revert Hopen. rewrite world_step in Hset.
      cbn [step]. unfold withWorld. rewrite Hclosed.
      cbn [eventOnWorld] in Hhyd, Hset. by rewrite (Hsame _ _ Hhyd Hset eq_refl).
  - intros Hopen. exfalso. revert Hopen.
    cbn [step]. unfold handleRestoreDraft, withWorld.
    unfold mbind, M_bind. rewrite loadDraft_eq. cbn [snd mret M_ret].
    rewrite route_commit, world_commit, post_commit. cbn [route world post].
    assert (commit (mkPage (route p) (world p) (showDraftDialog p) (post p)
                           (dialogEffectDeps p)) = p) as ->.
    { unfold commit. rewrite bool_decide_eq_true_2 by done. by destruct p. }
    by rewrite (Hsame _ _ eq_refl eq_refl eq_refl).
  - intros Hopen. exfalso. revert Hopen.
    cbn [step]. unfold handleDiscardDraft. rewrite showDraftDialog_commit.
    case_bool_decide; [done|]. cbn [showDraftDialog].
    rewrite dialogCondition_hasDraft; [done|].
    cbn [world]. by rewrite clearDraft_eq.
  - intros Hopen. right. exists id. split; [done|]. intros Hpost.
    revert Hopen. cbn [step]. rewrite Hclosed.
    by rewrite (Hsame (world p) (Some id) eq_refl eq_refl (eq_sym Hpost)).
Qed.
End dialog_openings.

(** The page of the trace of C9 before its last tick, and that tick. *)
Lemma dialog_opens_only_on_new_draft_or_post_witness :
  let stored := JSON_stringify (DraftData_object (mkDraftData samplePost (str "09:00:00"))) in
  let p := foldl step (mount NewPostPage {[ storageKey (draftKey NewPostPage) := stored ]})
             [ChangeCheckTick (Some samplePost); DiscardDraft;
              ChangeCheckTick (Some samplePostEdited)] in
  let e := AutoSaveTick (str "10:00:05") (Some samplePostEdited) in
  dialogEffectDeps p = Some (currentDeps p) ∧ showDraftDialog p = false ∧
  showDraftDialog (step p e) = true ∧
  dialogEffectDeps (step p e) = Some (currentDeps (step p e)).
Proof.
  cbv zeta.
  split; [vm_compute; reflexivity|]. split; [vm_compute; reflexivity|].
  split; [vm_compute; reflexivity|].
  refine (proj1 (dialog_opens_only_on_new_draft_or_post _ _ _ _));
    vm_compute; reflexivity.
Defined.

(** ** The hook on a storage that may refuse the write *)

Section storage_answers.

Lemma saveDraftOn_Accepts key now getData :
  saveDraftOn Accepts key now getData = saveDraft key now getData.
Proof. done. Qed.

Lemma autoSaveTickOn_Accepts key now getData :
  autoSaveTickOn Accepts key now getData = autoSaveTick key now getData.
Proof. done. Qed.

(** [saveDraft] when the storage refuses the write: the call is made and
    thrown out of, with the status left at "saving". *)
Lemma saveDraftOn_Refuses key now d w :
  saveDraftOn Refuses key now (Some d) w =
  if bool_decide (lastSavedHashRef (hook w) = Some (dataToHash d))
  then (Normal (), w)
  else
    let snapshot := JSON_stringify (DraftData_object (mkDraftData d now)) in
    (Throw QuotaExceededError,
     mkWorld (mkHook Saving (lastSaved (hook w)) (hasUnsavedChanges (hook w))
                     (hasDraft (hook w)) (isHydrated (hook w))
                     (lastSavedHashRef (hook w)))
             (localStorage w) ((storageKey key, snapshot) :: setItemCalls w)).
Proof.
  destruct w as [[st ls hu hd hy ref] storage calls].
  cbv [saveDraftOn setItemOn mbind M_bind mret M_ret modifyHook setStatus
       setLastSaved setHasUnsavedChanges setHasDraft setLastSavedHashRef
       getLastSavedHashRef].
  cbn [hook localStorage setItemCalls status lastSaved hasUnsavedChanges
       hasDraft isHydrated lastSavedHashRef fst snd].
  by case_bool_decide.
Qed.

(** The auto-save tick calls [localStorage.setItem] exactly when the accessor
    has data, a baseline is recorded and the live fingerprint differs from
    it, and then with the storage key and the snapshot of the data. If the
    storage accepts, the tick ends as [saveDraft] does: the snapshot is
    stored, its fingerprint recorded and the status "saved". If the storage
    refuses, the tick throws the [QuotaExceededError]: nothing is stored,
    the baseline stays, and the status is left at "saving". On the first
    tick with data after a mount (no baseline yet) it only records the
    baseline: what has been typed by then is not stored. Without data it
    changes nothing. *)
Theorem autoSaveTick_writes_iff_dirty answer key now getData w :
  let r := autoSaveTickOn answer key now getData w in
  autoSaveTickOn Accepts key now getData w = autoSaveTick key now getData w ∧
  match getData, lastSavedHashRef (hook w) with
  | Some d, Some last =>
    if bool_decide (last = dataToHash d)
    then r.1 = Normal () ∧
         setItemCalls r.2 = setItemCalls w ∧ localStorage r.2 = localStorage w
    else
      let snapshot := JSON_stringify (DraftData_object (mkDraftData d now)) in
      setItemCalls r.2 = (storageKey key, snapshot) :: setItemCalls w ∧
      match answer with
      | Accepts =>
        r.1 = Normal () ∧ r.2 = (saveDraft key now (Some d) w).2 ∧
        localStorage r.2 = <[storageKey key := snapshot]> (localStorage w) ∧
        lastSavedHashRef (hook r.2) = Some (dataToHash d) ∧
        status (hook r.2) = Saved
      | Refuses =>
        r.1 = Throw QuotaExceededError ∧ localStorage r.2 = localStorage w ∧
        lastSavedHashRef (hook r.2) = Some last ∧
        status (hook r.2) = Saving ∧ hasUnsavedChanges (hook r.2) = true
      end
  | Some d, None =>
    r.1 = Normal () ∧
    setItemCalls r.2 = setItemCalls w ∧ localStorage r.2 = localStorage w ∧
    lastSavedHashRef (hook r.2) = Some (dataToHash d)
  | None, _ => r = (Normal (), w)
  end.
Proof.
  intros r. split; [done|]. unfold r, autoSaveTickOn, mbind, M_bind.
  destruct getData as [d|]; [|done].
  rewrite checkForChanges_Some. cbn zeta.
  destruct (lastSavedHashRef (hook w)) as [last|] eqn:Hlast; [|done].
  case_bool_decide as Hsame; cbn [negb]; [done|].
  assert (Some last ≠ Some (dataToHash d)) as Hne by congruence.
  destruct answer.
  - rewrite saveDraftOn_Accepts, !saveDraft_Some.
    cbn [hook lastSavedHashRef]. rewrite Hlast.
    rewrite !bool_decide_eq_false_2 by done. done.
  - rewrite saveDraftOn_Refuses. cbn [hook lastSavedHashRef].
    rewrite bool_decide_eq_false_2 by done. done.
Qed.

(** A write the storage refuses is not lost for good. With a baseline
    recorded and a live state that differs from it, an auto-save tick the
    storage refuses throws, stores nothing, and changes of the hook only
    [hasUnsavedChanges], which it sets, and the status, which it leaves at
    "saving". The next tick on the same state calls [setItem] again; if the
    storage accepts then, the snapshot of that moment is stored and the
    status becomes "saved", and if it refuses again the same happens over. *)
Theorem refused_write_is_retried answer key t1 t2 d last w :
  lastSavedHashRef (hook w) = Some last → last ≠ dataToHash d →
  let r1 := autoSaveTickOn Refuses key t1 (Some d) w in
  let r2 := autoSaveTickOn answer key t2 (Some d) r1.2 in
  let snapshot t := JSON_stringify (DraftData_object (mkDraftData d t)) in
  r1.1 = Throw QuotaExceededError ∧
  hook r1.2 = mkHook Saving (lastSaved (hook w)) true (hasDraft (hook w))
                     (isHydrated (hook w)) (Some last) ∧
  localStorage r1.2 = localStorage w ∧
  setItemCalls r1.2 = (storageKey key, snapshot t1) :: setItemCalls w ∧
  setItemCalls r2.2 = (storageKey key, snapshot t2) :: setItemCalls r1.2 ∧
  match answer with
  | Accepts =>
    r2.1 = Normal () ∧
    localStorage r2.2 = <[storageKey key := snapshot t2]> (localStorage w) ∧
    hook r2.2 = mkHook Saved (Some (DateNow t2)) false true (isHydrated (hook w))
                       (Some (dataToHash d))
  | Refuses =>
    r2.1 = Throw QuotaExceededError ∧ localStorage r2.2 = localStorage w ∧
    hook r2.2 = hook r1.2
  end.
Proof.
  intros Hlast Hne r1 r2 snapshot.
  assert (Some last ≠ Some (dataToHash d)) as Hne' by congruence.
  assert (r1 = (Throw QuotaExceededError,
                mkWorld (mkHook Saving (lastSaved (hook w)) true (hasDraft (hook w))
                                (isHydrated (hook w)) (Some last))
                        (localStorage w)
                        ((storageKey key, snapshot t1) :: setItemCalls w))) as Hr1.
  { unfold r1, autoSaveTickOn, mbind, M_bind. rewrite checkForChanges_Some.
    cbn zeta. rewrite Hlast. rewrite bool_decide_eq_false_2 by done. cbn [negb].
    rewrite saveDraftOn_Refuses. cbn [hook lastSavedHashRef].
    by rewrite bool_decide_eq_false_2 by done. }
  unfold r2. rewrite Hr1. cbn [fst snd hook localStorage setItemCalls].
  split_and!; try done.
  - unfold autoSaveTickOn, mbind, M_bind. rewrite checkForChanges_Some.
    cbn zeta. cbn [hook lastSavedHashRef]. rewrite bool_decide_eq_false_2 by done.
    cbn [negb]. destruct answer.
    + rewrite saveDraftOn_Accepts, saveDraft_Some. cbn [hook lastSavedHashRef].
      by rewrite bool_decide_eq_false_2 by done.
    + rewrite saveDraftOn_Refuses. cbn [hook lastSavedHashRef].
      by rewrite bool_decide_eq_false_2 by done.
  - unfold autoSaveTickOn, mbind, M_bind. rewrite checkForChanges_Some.
    cbn zeta. cbn [hook lastSavedHashRef]. rewrite bool_decide_eq_false_2 by done.
    cbn [negb]. destruct answer.
    + rewrite saveDraftOn_Accepts, saveDraft_Some. cbn [hook lastSavedHashRef].
      by rewrite bool_decide_eq_false_2 by done.
    + rewrite saveDraftOn_Refuses. cbn [hook lastSavedHashRef].
      by rewrite bool_decide_eq_false_2 by done.
Qed.
End storage_answers.

(** A full storage while the edited sample post is due, then room again. *)
Lemma refused_write_is_retried_witness :
  let w := (checkForChanges (Some samplePost) freshWorld).2 in
  let r1 := autoSaveTickOn Refuses (str "new-post") (str "10:00:05")
              (Some samplePostEdited) w in
  let r2 := autoSaveTickOn Accepts (str "new-post") (str "10:00:10")
              (Some samplePostEdited) r1.2 in
  lastSavedHashRef (hook w) = Some (dataToHash samplePost) ∧
  dataToHash samplePost ≠ dataToHash samplePostEdited ∧
  r1.1 = Throw QuotaExceededError ∧ status (hook r1.2) = Saving ∧
  localStorage r1.2 !! storageKey (str "new-post") = None ∧
  r2.1 = Normal () ∧ status (hook r2.2) = Saved ∧
  is_Some (localStorage r2.2 !! storageKey (str "new-post")).
Proof.
  cbv zeta.
  assert (lastSavedHashRef (hook (checkForChanges (Some samplePost) freshWorld).2)
          = Some (dataToHash samplePost)) as H1 by done.
  assert (dataToHash samplePost ≠ dataToHash samplePostEdited) as H2
    by (vm_compute; discriminate).
  destruct (refused_write_is_retried Accepts (str "new-post") (str "10:00:05")
              (str "10:00:10") samplePostEdited (dataToHash samplePost)
              (checkForChanges (Some samplePost) freshWorld).2 H1 H2)
    as (Hthrow & Hhook & Hstore & _ & _ & Hok & Hstore2 & Hhook2).
  split_and!; [exact H1|exact H2|exact Hthrow|by rewrite Hhook|by rewrite Hstore|
               exact Hok|by rewrite Hhook2|].
  rewrite Hstore2, lookup_insert_eq. by eexists.
Defined.

(** ** Restoring a draft *)

Section restore.
Implicit Types (p : Page).




End restore.

